(** * ShaderTeacher: the live shader pipeline, its debouncer and its AI service

    A shallow embedding of the parts of the repository that carry behaviour:

    - [src/components/ShaderCanvas.tsx]: the compile effect with its inline
      diagnostic extraction, the render loop ([animate]) and the pointer and
      resize handlers;
    - [src/App.tsx]: the [runnableCode] debounce effect;
    - [src/services/geminiService.ts]: the three AI operations;
    - further down, the AI handlers of [src/App.tsx] and the highlighter of
      [src/components/CodeEditor.tsx].

    JavaScript strings are sequences of UTF-16 code units; they are modelled
    as [list N], one number per code unit.  The browser, the WebGL driver and
    the AI service are oracles: every answer they may give is an input of the
    model. *)

From Stdlib Require Import ZArith NArith QArith Qround List String Ascii Lia.
From stdpp Require Import base list.

#[local] Open Scope N_scope.

(** ** JavaScript strings *)

Module Js.

(** A string is the list of its code units. *)
Abbreviation str := (list N).

(** A literal of the source, all of whose characters are ASCII. *)
Definition lit (s : string) : str :=
  map N_of_ascii (list_ascii_of_string s).
Arguments lit s%_string.

(** [s.startsWith(p)], returning what follows the prefix. *)
Fixpoint strip_prefix (p s : str) : option str :=
  match p, s with
  | [], _ => Some s
  | _ :: _, [] => None
  | a :: p', b :: s' => if N.eqb a b then strip_prefix p' s' else None
  end.

Definition startsWith (s p : str) : bool :=
  match strip_prefix p s with Some _ => true | None => false end.

(** [s.includes(p)]. *)
Fixpoint includes (s p : str) : bool :=
  startsWith s p ||
  match s with
  | [] => false
  | _ :: s' => includes s' p
  end.

(** [s.replace(/p/g, '')] for a literal, non-empty pattern [p]: the scan
    goes left to right, and a match consumes its characters, so matches do
    not overlap.  [skip] counts the characters of the current match that
    are still to be consumed. *)
Fixpoint remove_all_from (p : str) (skip : nat) (s : str) : str :=
  match s with
  | [] => []
  | c :: s' =>
      match skip with
      | S k => remove_all_from p k s'
      | O =>
          if startsWith s p
          then remove_all_from p (Nat.pred (length p)) s'
          else c :: remove_all_from p O s'
      end
  end.

Definition remove_all (p s : str) : str := remove_all_from p O s.

(** White space and line terminators, the code units [trim] strips. *)
Definition is_space (c : N) : bool :=
  (9 <=? c) && (c <=? 13)
  || (c =? 32) || (c =? 160) || (c =? 5760)
  || (8192 <=? c) && (c <=? 8202)
  || (c =? 8232) || (c =? 8233) || (c =? 8239) || (c =? 8287)
  || (c =? 12288) || (c =? 65279).

Fixpoint trimStart (s : str) : str :=
  match s with
  | [] => []
  | c :: s' => if is_space c then trimStart s' else s
  end.

Definition trimEnd (s : str) : str := rev (trimStart (rev s)).

Definition trim (s : str) : str := trimEnd (trimStart s).

(** [\d]: an ASCII decimal digit. *)
Definition is_digit (c : N) : bool := (48 <=? c) && (c <=? 57).

(** The longest run of digits at the start of [s], and what follows it:
    what a greedy [\d*] consumes. *)
Fixpoint span_digits (s : str) : str * str :=
  match s with
  | [] => ([], [])
  | c :: s' =>
      if is_digit c
      then let '(d, r) := span_digits s' in (c :: d, r)
      else ([], s)
  end.

(** [parseInt] on a string of decimal digits: its value in base ten.  The
    JavaScript result is a double, which holds this value exactly as long
    as it does not exceed [MAX_SAFE_INTEGER]. *)
Definition digit_value (c : N) : N := c - 48.

Definition parseInt (s : str) : N :=
  fold_left (fun acc c => 10 * acc + digit_value c) (fst (span_digits s)) 0.

Definition MAX_SAFE_INTEGER : N := 2 ^ 53 - 1.

(** [x || d] on a value that may be [undefined]: the empty string is falsy
    as well. *)
Definition or_else (x : option str) (d : str) : str :=
  match x with
  | Some (c :: s) => c :: s
  | _ => d
  end.

End Js.

Import Js.

(** ** The diagnostic extraction of [compileShader] *)

(** [ShaderError] of [src/types]: only its use is in the sources,
    [{ line, message }]. *)
Record ShaderError := mkShaderError { line : N; message : str }.

Module Diagnostics.

(** [/ERROR: \d+:(\d+):/] tried at the start of [s]; the result is capture
    group 1.  Each [\d+] is greedy, and the character that must follow it
    is a colon, which is no digit: giving back digits never helps, so the
    only candidate is the longest run. *)
Definition match_here (s : str) : option str :=
  match strip_prefix (lit "ERROR: ") s with
  | None => None
  | Some r0 =>
      match span_digits r0 with
      | (_ :: _, 58 :: r1) =>
          match span_digits r1 with
          | (c :: d, 58 :: _) => Some (c :: d)
          | _ => None
          end
      | _ => None
      end
  end.

(** [info.match(/ERROR: \d+:(\d+):/)]: the leftmost position at which the
    expression matches; [None] is [null]. *)
Fixpoint regex_match (s : str) : option str :=
  match match_here s with
  | Some d => Some d
  | None =>
      match s with
      | [] => None
      | _ :: s' => regex_match s'
      end
  end.

(** Lines 77-82 of ShaderCanvas.tsx: the value handed to [onCompileError]
    for a log [info]. *)
Definition extract (info : str) : ShaderError :=
  match regex_match info with
  | Some m => {| line := parseInt m; message := info |}
  | None => {| line := 0; message := info |}
  end.

End Diagnostics.

Import Diagnostics.

(** ** ShaderCanvas: the program lifecycle *)

Module Lifecycle.

Inductive ShaderType := VERTEX_SHADER | FRAGMENT_SHADER.

(** [DEFAULT_VERTEX_SHADER] of constants.ts. *)
Definition DEFAULT_VERTEX_SHADER : str := lit "
attribute vec2 position;
void main() {
  gl_Position = vec4(position, 0.0, 1.0);
}
".

(** A [WebGLShader]: the name the context gave it, its stage, and the text
    given to [gl.shaderSource]. *)
Record Shader := mkShader
  { shader_name : N; shader_type : ShaderType; shader_source : str }.

(** A [WebGLProgram]: its name and the two shaders attached to it. *)
Record Program := mkProgram
  { program_name : N; program_vs : Shader; program_fs : Shader }.

(** The fragment SourceText a program was built from. *)
Definition fragment_of (p : Program) : str := shader_source (program_fs p).

(** What the driver answers during one run of the compile effect.  A
    [false] in [createShader_ok] or [createProgram_ok] is a [null] result. *)
Record Driver := mkDriver
  { createShader_ok : ShaderType -> bool;
    COMPILE_STATUS : ShaderType -> bool;
    getShaderInfoLog : ShaderType -> option str;
    createProgram_ok : bool;
    LINK_STATUS : bool;
    getProgramInfoLog : option str }.

(** The refs of the component that the compile effect touches, and the
    trace of what it did to the outside: objects deleted, programs linked,
    calls of [onCompileError], lines written by [console.error].  Traces
    have the latest entry first. *)
Record Session := mkSession
  { glRef : bool;
    programRef : option Program;
    next_name : N;
    deletedShaders : list N;
    deletedPrograms : list N;
    linked : list N;
    positionBuffers : list N;
    reported : list (option ShaderError);
    console : list (option str) }.

(** The [error] state of App: [handleError] is [setError], and the state
    starts as [null]. *)
Definition error (s : Session) : option ShaderError :=
  match reported s with
  | e :: _ => e
  | [] => None
  end.

(** The session after the setup effect (lines 22-59); [gl] tells whether
    [canvas.getContext('webgl')] gave a context.  Without one the effect
    writes a line to the console and returns. *)
Definition mount (gl : bool) : Session :=
  {| glRef := gl; programRef := None; next_name := 1;
     deletedShaders := []; deletedPrograms := []; linked := [];
     positionBuffers := []; reported := [];
     console := if gl then [] else [Some (lit "WebGL not supported")] |}.

(** Effects on the session. *)
Definition Eff (A : Type) : Type := Session -> A * Session.

Definition ret {A} (a : A) : Eff A := fun s => (a, s).

Definition bind {A B} (c : Eff A) (k : A -> Eff B) : Eff B :=
  fun s => let '(a, s') := c s in k a s'.

Notation "x <- c ;; k" := (bind c (fun x => k))
  (at level 100, c at next level, right associativity).
Notation "c ;; k" := (bind c (fun _ => k))
  (at level 100, right associativity).

Definition exec {A} (c : Eff A) (s : Session) : Session := snd (c s).

Definition get_glRef : Eff bool := fun s => (glRef s, s).

Definition get_programRef : Eff (option Program) := fun s => (programRef s, s).

Definition set_programRef (p : Program) : Eff unit := fun s =>
  (tt, {| glRef := glRef s; programRef := Some p; next_name := next_name s;
          deletedShaders := deletedShaders s;
          deletedPrograms := deletedPrograms s; linked := linked s;
          positionBuffers := positionBuffers s; reported := reported s;
          console := console s |}).

(** A new object name. *)
Definition fresh : Eff N := fun s =>
  (next_name s,
   {| glRef := glRef s; programRef := programRef s;
      next_name := N.succ (next_name s);
      deletedShaders := deletedShaders s;
      deletedPrograms := deletedPrograms s; linked := linked s;
      positionBuffers := positionBuffers s; reported := reported s;
      console := console s |}).

Definition deleteShader (sh : Shader) : Eff unit := fun s =>
  (tt, {| glRef := glRef s; programRef := programRef s;
          next_name := next_name s;
          deletedShaders := shader_name sh :: deletedShaders s;
          deletedPrograms := deletedPrograms s; linked := linked s;
          positionBuffers := positionBuffers s; reported := reported s;
          console := console s |}).

Definition deleteProgram (p : Program) : Eff unit := fun s =>
  (tt, {| glRef := glRef s; programRef := programRef s;
          next_name := next_name s; deletedShaders := deletedShaders s;
          deletedPrograms := program_name p :: deletedPrograms s;
          linked := linked s; positionBuffers := positionBuffers s;
          reported := reported s; console := console s |}).

Definition linkProgram (p : Program) : Eff unit := fun s =>
  (tt, {| glRef := glRef s; programRef := programRef s;
          next_name := next_name s; deletedShaders := deletedShaders s;
          deletedPrograms := deletedPrograms s;
          linked := program_name p :: linked s;
          positionBuffers := positionBuffers s; reported := reported s;
          console := console s |}).

Definition onCompileError (e : option ShaderError) : Eff unit := fun s =>
  (tt, {| glRef := glRef s; programRef := programRef s;
          next_name := next_name s; deletedShaders := deletedShaders s;
          deletedPrograms := deletedPrograms s; linked := linked s;
          positionBuffers := positionBuffers s; reported := e :: reported s;
          console := console s |}).

Definition console_error (m : option str) : Eff unit := fun s =>
  (tt, {| glRef := glRef s; programRef := programRef s;
          next_name := next_name s; deletedShaders := deletedShaders s;
          deletedPrograms := deletedPrograms s; linked := linked s;
          positionBuffers := positionBuffers s; reported := reported s;
          console := m :: console s |}).

(** [gl.createBuffer] with the quad uploaded and bound to [position]. *)
Definition setupGeometry : Eff unit := fun s =>
  (tt, {| glRef := glRef s; programRef := programRef s;
          next_name := N.succ (next_name s);
          deletedShaders := deletedShaders s;
          deletedPrograms := deletedPrograms s; linked := linked s;
          positionBuffers := next_name s :: positionBuffers s;
          reported := reported s; console := console s |}).

(** [gl.createShader(type)] followed by [gl.shaderSource]. *)
Definition createShader (d : Driver) (type : ShaderType) (source : str)
  : Eff (option Shader) :=
  if createShader_ok d type
  then n <- fresh ;; ret (Some (mkShader n type source))
  else ret None.

(** [gl.createProgram()] followed by the two [gl.attachShader]. *)
Definition createProgram (d : Driver) (vs fs : Shader) : Eff (option Program) :=
  if createProgram_ok d
  then n <- fresh ;; ret (Some (mkProgram n vs fs))
  else ret None.

(** [compileShader] of the compile effect (lines 66-87). *)
Definition compileShader (d : Driver) (source : str) (type : ShaderType)
  : Eff (option Shader) :=
  shader <- createShader d type source ;;
  match shader with
  | None => ret None
  | Some shader =>
      if negb (COMPILE_STATUS d type) then
        let info := getShaderInfoLog d type in
        deleteShader shader ;;
        match type, info with
        | FRAGMENT_SHADER, Some (c :: i) => onCompileError (Some (extract (c :: i)))
        | _, _ => ret tt
        end ;;
        ret None
      else ret (Some shader)
  end.

(** The compile effect (lines 62-126), run for [fragmentShader] against the
    answers [d] of the driver. *)
Definition compileEffect (d : Driver) (fragmentShader : str) : Eff unit :=
  gl <- get_glRef ;;
  if negb gl then ret tt else
  vs <- compileShader d DEFAULT_VERTEX_SHADER VERTEX_SHADER ;;
  fs <- compileShader d fragmentShader FRAGMENT_SHADER ;;
  match vs, fs with
  | Some vs, Some fs =>
      program <- createProgram d vs fs ;;
      match program with
      | None => ret tt
      | Some program =>
          linkProgram program ;;
          if negb (LINK_STATUS d) then console_error (getProgramInfoLog d)
          else
            old <- get_programRef ;;
            match old with
            | Some old => deleteProgram old
            | None => ret tt
            end ;;
            set_programRef program ;;
            onCompileError None ;;
            setupGeometry
      end
  | _, _ => ret tt
  end.

(** One recompile attempt: the fragment source the effect runs for, and
    the answers of the driver. *)
Record Attempt := mkAttempt { source : str; driver : Driver }.

Definition recompile (a : Attempt) (s : Session) : Session :=
  exec (compileEffect (driver a) (source a)) s.

Definition recompile_all (l : list Attempt) (s : Session) : Session :=
  fold_left (fun s a => recompile a s) l s.

(** The attempt goes through: there is a context, both stages compile and
    the program links. *)
Definition stage_ok (d : Driver) (t : ShaderType) : bool :=
  createShader_ok d t && COMPILE_STATUS d t.

Definition links (d : Driver) : bool := createProgram_ok d && LINK_STATUS d.

Definition succeeds (s : Session) (a : Attempt) : bool :=
  glRef s && stage_ok (driver a) VERTEX_SHADER
  && stage_ok (driver a) FRAGMENT_SHADER && links (driver a).

End Lifecycle.

(** ** ShaderCanvas: the surface, the pointer and the render loop *)

Module Viewport.

#[local] Open Scope Z_scope.

(** What the page layout says at the time of an event: the CSS size of the
    canvas, [window.devicePixelRatio], and the corner of
    [canvas.getBoundingClientRect()]. *)
Record Layout := mkLayout
  { clientWidth : Z; clientHeight : Z; devicePixelRatio : Q;
    rect_left : Q; rect_top : Q }.

(** The [width] and [height] attributes of the canvas and [mouseRef]. *)
Record Surface := mkSurface
  { width : Z; height : Z; mouseRef : Q * Q }.

(** Storing a number in [canvas.width], an [unsigned long]: the fraction is
    dropped and the value taken modulo [2^32].  (From [2^31] on the
    attribute falls back to its default; no canvas is that large.) *)
Definition to_unsigned_long (q : Q) : Z :=
  (Qnum q ÷ Z.pos (Qden q)) mod 2 ^ 32.

(** The canvas as created (300 by 150) with [mouseRef] as line 19 starts
    it. *)
Definition initial : Surface :=
  {| width := 300; height := 150; mouseRef := (0%Q, 0%Q) |}.

(** [handleResize] (lines 34-40).  The products are the exact ones; the
    products of doubles of the code are these numbers whenever these are
    doubles themselves, as they are for the ratios 1, 1.5, 2 and the like. *)
Definition handleResize (l : Layout) (v : Surface) : Surface :=
  {| width := to_unsigned_long (inject_Z (clientWidth l) * devicePixelRatio l);
     height := to_unsigned_long (inject_Z (clientHeight l) * devicePixelRatio l);
     mouseRef := mouseRef v |}.

(** [handleMouseMove] (lines 45-51) for an event at [(clientX, clientY)]. *)
Definition handleMouseMove (l : Layout) (clientX clientY : Q) (v : Surface)
  : Surface :=
  {| width := width v; height := height v;
     mouseRef := ((clientX - rect_left l)%Q,
                  (inject_Z (height v) - (clientY - rect_top l))%Q) |}.

(** The surface after the setup effect of a canvas that has a context:
    [handleResize] is called once. *)
Definition mount (l : Layout) : Surface := handleResize l initial.

End Viewport.

Module Loop.

Import Lifecycle Viewport.

#[local] Open Scope Z_scope.

(** The uniforms of one [gl.drawArrays] and the program it was drawn with. *)
Record Frame := mkFrame
  { used : Program; u_resolution : Z * Z; u_time : Q; u_mouse : Q * Q }.

(** The refs and props of the render loop, the callbacks the browser holds
    for the next refresh (each with its handle and the [isPlaying] its
    [animate] closure captured, in the order of their registration), and the
    frames drawn so far, latest first. *)
Record Scheduler := mkScheduler
  { startTimeRef : Z;
    requestRef : option N;
    isPlaying : bool;
    callbacks : list (N * bool);
    next_handle : N;
    frames : list Frame }.

Record Component := mkComponent
  { life : Session; view : Surface; loop : Scheduler }.

(** [requestRef.current = requestAnimationFrame(animate)], for the
    [animate] of a render whose [isPlaying] was [captured]. *)
Definition request (captured : bool) (l : Scheduler) : Scheduler :=
  {| startTimeRef := startTimeRef l;
     requestRef := Some (next_handle l);
     isPlaying := isPlaying l;
     callbacks := callbacks l ++ [(next_handle l, captured)];
     next_handle := N.succ (next_handle l);
     frames := frames l |}.

(** [if (requestRef.current) cancelAnimationFrame(requestRef.current)]. *)
Definition cancel (l : Scheduler) : Scheduler :=
  match requestRef l with
  | None => l
  | Some h =>
      {| startTimeRef := startTimeRef l;
         requestRef := requestRef l;
         isPlaying := isPlaying l;
         callbacks := List.filter (fun cb => negb (N.eqb (fst cb) h)) (callbacks l);
         next_handle := next_handle l;
         frames := frames l |}
  end.

Definition draw (f : Frame) (l : Scheduler) : Scheduler :=
  {| startTimeRef := startTimeRef l; requestRef := requestRef l;
     isPlaying := isPlaying l; callbacks := callbacks l;
     next_handle := next_handle l; frames := f :: frames l |}.

(** [animate] (lines 129-152), called when [Date.now()] is [now]. *)
Definition animate (captured : bool) (now : Z) (c : Component) : Component :=
  let l1 :=
    match glRef (life c), programRef (life c) with
    | true, Some program =>
        draw {| used := program;
                u_resolution := (width (view c), height (view c));
                u_time := (now - startTimeRef (loop c)) # 1000;
                u_mouse := mouseRef (view c) |} (loop c)
    | _, _ => loop c
    end in
  {| life := life c; view := view c;
     loop := if captured then request captured l1 else l1 |}.

(** The effect on [isPlaying] (lines 154-159) and its cleanup (161). *)
Definition playEffect (l : Scheduler) : Scheduler :=
  if isPlaying l then request (isPlaying l) l else cancel l.

Definition playCleanup (l : Scheduler) : Scheduler := cancel l.

Definition with_isPlaying (b : bool) (l : Scheduler) : Scheduler :=
  {| startTimeRef := startTimeRef l; requestRef := requestRef l;
     isPlaying := b; callbacks := callbacks l;
     next_handle := next_handle l; frames := frames l |}.

(** The first render, when [Date.now()] is [now]: the refs get their
    initial values and the effect runs. *)
Definition mount (now : Z) (playing : bool) : Scheduler :=
  playEffect {| startTimeRef := now; requestRef := None; isPlaying := playing;
                callbacks := []; next_handle := 1%N; frames := [] |}.

(** What happens to a mounted component. *)
Inductive Event :=
| Refresh (now : Z)
| SetIsPlaying (b : bool)
| Recompile (a : Attempt)
| Resize (l : Layout)
| MouseMove (l : Layout) (clientX clientY : Q).

Definition with_loop (l : Scheduler) (c : Component) : Component :=
  {| life := life c; view := view c; loop := l |}.

Definition clear_callbacks (l : Scheduler) : Scheduler :=
  {| startTimeRef := startTimeRef l; requestRef := requestRef l;
     isPlaying := isPlaying l; callbacks := [];
     next_handle := next_handle l; frames := frames l |}.

(** A display refresh: the browser takes the callbacks registered so far
    and runs them; what they register waits for the next refresh. *)
Definition refresh (now : Z) (c : Component) : Component :=
  fold_left (fun c cb => animate (snd cb) now c) (callbacks (loop c))
            (with_loop (clear_callbacks (loop c)) c).

(** The [isPlaying] prop changes: the cleanup of the previous effect runs,
    then the effect.  Setting the state to the value it has re-runs
    nothing. *)
Definition setIsPlaying (b : bool) (c : Component) : Component :=
  if Bool.eqb b (isPlaying (loop c)) then c
  else with_loop (playEffect (with_isPlaying b (playCleanup (loop c)))) c.

Definition step (e : Event) (c : Component) : Component :=
  match e with
  | Refresh now => refresh now c
  | SetIsPlaying b => setIsPlaying b c
  | Recompile a =>
      {| life := recompile a (life c); view := view c; loop := loop c |}
  | Resize l =>
      {| life := life c; view := handleResize l (view c); loop := loop c |}
  | MouseMove l x y =>
      {| life := life c; view := handleMouseMove l x y (view c); loop := loop c |}
  end.

Definition run (es : list Event) (c : Component) : Component :=
  fold_left (fun c e => step e c) es c.

End Loop.

(** ** App: the debounce of [runnableCode] *)

Module Debounce.

#[local] Open Scope Z_scope.

(** The two states of App, the pending [setTimeout] of the effect (when it
    is due, and the [code] its callback captured), the calls of
    [setRunnableCode] with their times, and the values of [fragmentShader]
    the compile effect of ShaderCanvas ran for; both traces have the latest
    entry first. *)
Record App := mkApp
  { code : str;
    runnableCode : str;
    timer : option (Z * str);
    settled : list (Z * str);
    compiled : list str }.

Definition window : Z := 800.

(** The first render at time [now]: both states start as the initial
    shader, the canvas compiles it, and the effect arms its timer. *)
Definition mount (now : Z) (initial : str) : App :=
  {| code := initial; runnableCode := initial;
     timer := Some (now + window, initial);
     settled := []; compiled := [initial] |}.

(** The timer goes off: [setRunnableCode(code)].  The canvas effect runs
    again only when the prop changed. *)
Definition fire (due : Z) (c : str) (a : App) : App :=
  {| code := code a; runnableCode := c; timer := None;
     settled := (due, c) :: settled a;
     compiled := if decide (c = runnableCode a) then compiled a
                 else c :: compiled a |}.

(** Time passes until [now]: a timer that is due by then goes off. *)
Definition elapse (now : Z) (a : App) : App :=
  match timer a with
  | Some (due, c) => if due <=? now then fire due c a else a
  | None => a
  end.

(** [setCode(c)] at time [now].  Setting the state to the value it has
    re-runs nothing; otherwise the cleanup of the effect clears the pending
    timer and the effect arms a new one. *)
Definition setCode (now : Z) (c : str) (a : App) : App :=
  let a := elapse now a in
  if decide (c = code a) then a
  else {| code := c; runnableCode := runnableCode a;
          timer := Some (now + window, c);
          settled := settled a; compiled := compiled a |}.

Definition edits (es : list (Z * str)) (a : App) : App :=
  fold_left (fun a e => setCode (fst e) (snd e) a) es a.

End Debounce.

(** ** geminiService: the three AI operations *)

Module Gemini.

(** How [ai.models.generateContent] ends: the promise rejects, or it gives
    a response whose [text] may be [undefined]. *)
Inductive Outcome :=
| Rejects (reason : str)
| Fulfils (text : option str).

(** How the body of a function ends; the promise of an [async] function
    resolves with the value returned and rejects with what was thrown. *)
Inductive Completion (A : Type) :=
| Returns (a : A)
| Throws (reason : str).
Arguments Returns {A} a.
Arguments Throws {A} reason.

Definition await (o : Outcome) : Completion (option str) :=
  match o with
  | Rejects r => Throws r
  | Fulfils t => Returns t
  end.

Definition try_catch {A} (body : Completion A) (handler : str -> Completion A)
  : Completion A :=
  match body with
  | Returns a => Returns a
  | Throws r => handler r
  end.

Definition and_then {A B} (c : Completion A) (k : A -> Completion B)
  : Completion B :=
  match c with
  | Returns a => k a
  | Throws r => Throws r
  end.

(** The service: what it does with the [contents] of a request. *)
Definition Service : Type := str -> Outcome.

Definition quote : str := [34%N].

Definition explanation_contents (code : str) : str :=
  lit "Explain this GLSL fragment shader code to a beginner. Focus on the mathematical concepts and visual outcome. Keep it concise (under 150 words) but informative."
  ++ [10%N; 10%N] ++ lit "Code:" ++ [10%N] ++ code.

Definition generation_contents (prompt : str) : str :=
  lit "Write a GLSL fragment shader compatible with WebGL 1.0 (GLSL ES 1.00) based on this request: "
  ++ quote ++ prompt ++ quote ++ lit ".
      
      Requirements:
      - Use 'precision mediump float;'
      - Uniforms available: 'uniform vec2 u_resolution;', 'uniform float u_time;', 'uniform vec2 u_mouse;'
      - Output to 'gl_FragColor'
      - ONLY return the raw shader code. Do not include markdown backticks or explanations outside the code.
      - Ensure the code compiles.".

Definition fix_contents (code errorMsg : str) : str :=
  lit "This GLSL shader has a compilation error. Fix it.
      
      Error: " ++ errorMsg ++ lit "
      
      Code:
      " ++ code ++ lit "
      
      Return ONLY the fixed code without markdown backticks.".

(** [text.replace(/```glsl/g, '').replace(/```/g, '').trim()]. *)
Definition cleanup (text : str) : str :=
  trim (remove_all (lit "```") (remove_all (lit "```glsl") text)).

Definition generateShaderExplanation (ai : Service) (code : str)
  : Completion str :=
  try_catch
    (and_then (await (ai (explanation_contents code))) (fun text =>
     Returns (or_else text (lit "Could not generate explanation."))))
    (fun _ => Returns (lit "Failed to connect to AI service.")).

Definition generateShaderFromPrompt (ai : Service) (prompt : str)
  : Completion str :=
  try_catch
    (and_then (await (ai (generation_contents prompt))) (fun text =>
     Returns (cleanup (or_else text []))))
    (fun _ => Returns (lit "// Error generating shader. Please try again.")).

Definition fixShaderCode (ai : Service) (code errorMsg : str)
  : Completion str :=
  try_catch
    (and_then (await (ai (fix_contents code errorMsg))) (fun text =>
     Returns (cleanup (or_else text code))))
    (fun _ => Returns code).

End Gemini.

(** ** Notions the statements use *)

Module Notions.

(** The code fence, and the number of backticks a string starts with. *)
Definition fence : str := [96; 96; 96].

Fixpoint backticks (s : str) : nat :=
  match s with
  | c :: s' => if c =? 96 then S (backticks s') else O
  | [] => O
  end.

(** A string of decimal digits, and its value in base ten. *)
Definition digits (d : str) : Prop := Forall (fun c => is_digit c = true) d.

Definition decimal (d : str) : N :=
  fold_left (fun acc c => 10 * acc + (c - 48)) d 0.

(** The strings [/ERROR: \d+:(\d+):/] matches from their first character
    on, with the text [ln] of group 1: the prefix, digits, a colon, digits,
    a colon. *)
Definition Matches (s ln : str) : Prop :=
  exists id post,
    digits id /\ id <> [] /\ digits ln /\ ln <> [] /\
    s = lit "ERROR: " ++ id ++ lit ":" ++ ln ++ lit ":" ++ post.

(** The expression matches [rawLog] after [pre] and at no earlier place. *)
Definition FirstMatch (rawLog pre ln : str) : Prop :=
  (exists s, rawLog = pre ++ s /\ Matches s ln)
  /\ forall k ln', (k < length pre)%nat -> ~ Matches (drop k rawLog) ln'.

(** The expression matches nowhere in [rawLog]. *)
Definition NoMatch (rawLog : str) : Prop :=
  forall k ln, ~ Matches (drop k rawLog) ln.

(** A string without code fence, without the "```glsl" marker, and with no
    white space at either end. *)
Definition Clean (r : str) : Prop :=
  includes r (lit "```") = false
  /\ includes r (lit "```glsl") = false
  /\ (forall c t, r = c :: t -> is_space c = false)
  /\ (forall t c, r = t ++ [c] -> is_space c = false).

(** The most recent attempt of [l] that goes through, for a component
    whose session started as [s]. *)
Fixpoint last_success (s : Lifecycle.Session) (l : list Lifecycle.Attempt)
  : option Lifecycle.Attempt :=
  match l with
  | [] => None
  | a :: l' =>
      match last_success s l' with
      | Some b => Some b
      | None => if Lifecycle.succeeds s a then Some a else None
      end
  end.

(** How many times [gl.deleteProgram] was called on the program [n]. *)
Definition destroyed (s : Lifecycle.Session) (n : N) : nat :=
  count_occ N.eq_dec (Lifecycle.deletedPrograms s) n.

(** Object names are handed out in increasing order: the active program
    has a name already handed out and is not deleted, and no name still to
    come is deleted. *)
Definition NamesFresh (s : Lifecycle.Session) : Prop :=
  (forall p, Lifecycle.programRef s = Some p ->
             Lifecycle.program_name p < Lifecycle.next_name s
             /\ destroyed s (Lifecycle.program_name p) = O)
  /\ (forall n, Lifecycle.next_name s <= n -> destroyed s n = O).

(** A burst of edits after an edit at time [t] that left the text [c]:
    each comes later than the one before, within the quiet window of it,
    and changes the text. *)
Fixpoint Burst (t : Z) (c : str) (es : list (Z * str)) : Prop :=
  match es with
  | [] => True
  | e :: es' =>
      (t < fst e < t + Debounce.window)%Z /\ snd e <> c /\ Burst (fst e) (snd e) es'
  end.

(** Edits after an edit at time [t] that left the text [c]: each comes
    later than the one before and changes the text. *)
Fixpoint Edits (t : Z) (c : str) (es : list (Z * str)) : Prop :=
  match es with
  | [] => True
  | e :: es' => (t < fst e)%Z /\ snd e <> c /\ Edits (fst e) (snd e) es'
  end.

(** The quiet periods of a sequence of edits, in the order of time: an
    edit that no other follows within the window ends one, at its time plus
    the window and with its text. *)
Fixpoint quiet_periods (es : list (Z * str)) : list (Z * str) :=
  match es with
  | [] => []
  | e :: es' =>
      match es' with
      | [] => [((fst e + Debounce.window)%Z, snd e)]
      | e' :: _ =>
          if (fst e + Debounce.window <=? fst e')%Z
          then ((fst e + Debounce.window)%Z, snd e) :: quiet_periods es'
          else quiet_periods es'
      end
  end.

(** The elapsed time of a frame drawn when [Date.now()] is [now] by a
    component mounted at [t0]. *)
Definition since (t0 now : Z) : Q := (now - t0) # 1000.

(** The number of shader objects an attempt creates for a stage. *)
Definition created (d : Lifecycle.Driver) (type : Lifecycle.ShaderType) : N :=
  if Lifecycle.createShader_ok d type then 1 else 0.

(** What the fragment stage of an attempt tells the error consumer: the
    diagnostic of its log, when its shader object was created, did not
    compile and left a log that is not empty; nothing otherwise. *)
Definition fragment_report (d : Lifecycle.Driver) : list (option ShaderError) :=
  if Lifecycle.createShader_ok d Lifecycle.FRAGMENT_SHADER
     && negb (Lifecycle.COMPILE_STATUS d Lifecycle.FRAGMENT_SHADER)
  then match Lifecycle.getShaderInfoLog d Lifecycle.FRAGMENT_SHADER with
       | Some (c :: i) => [Some (extract (c :: i))]
       | _ => []
       end
  else [].

End Notions.

(** ** Drivers for concrete runs *)

Module Drivers.

Import Lifecycle.

(** Everything compiles and links. *)
Definition accepting : Driver :=
  {| createShader_ok := fun _ => true;
     COMPILE_STATUS := fun _ => true;
     getShaderInfoLog := fun _ => Some [];
     createProgram_ok := true;
     LINK_STATUS := true;
     getProgramInfoLog := Some [] |}.

(** The fragment stage is rejected with the log [info]. *)
Definition rejecting_fragment (info : str) : Driver :=
  {| createShader_ok := fun _ => true;
     COMPILE_STATUS := fun t =>
       match t with VERTEX_SHADER => true | FRAGMENT_SHADER => false end;
     getShaderInfoLog := fun t =>
       match t with VERTEX_SHADER => Some [] | FRAGMENT_SHADER => Some info end;
     createProgram_ok := true;
     LINK_STATUS := true;
     getProgramInfoLog := Some [] |}.

(** The vertex stage is rejected with the log [info]; [fragment] tells
    whether the fragment stage compiles, and [finfo] is its log. *)
Definition rejecting_vertex (info : str) (fragment : bool) (finfo : str)
  : Driver :=
  {| createShader_ok := fun _ => true;
     COMPILE_STATUS := fun t =>
       match t with VERTEX_SHADER => false | FRAGMENT_SHADER => fragment end;
     getShaderInfoLog := fun t =>
       match t with VERTEX_SHADER => Some info | FRAGMENT_SHADER => Some finfo end;
     createProgram_ok := true;
     LINK_STATUS := true;
     getProgramInfoLog := Some [] |}.

(** Both stages compile and the link fails with the log [info]. *)
Definition failing_link (info : str) : Driver :=
  {| createShader_ok := fun _ => true;
     COMPILE_STATUS := fun _ => true;
     getShaderInfoLog := fun _ => Some [];
     createProgram_ok := true;
     LINK_STATUS := false;
     getProgramInfoLog := Some info |}.

(** Attempts for concrete runs. *)
Definition solid : Attempt :=
  mkAttempt (lit "void main() { gl_FragColor = vec4(1.0); }") accepting.

Definition gradient : Attempt :=
  mkAttempt (lit "void main() { gl_FragColor = vec4(gl_FragCoord.xy, 0.0, 1.0); }")
            accepting.

Definition broken : Attempt :=
  mkAttempt (lit "void main() {")
            (rejecting_fragment (lit "ERROR: 0:1: '' : syntax error")).

Definition unlinkable : Attempt :=
  mkAttempt (lit "void main() { gl_FragColor = vec4(1.0); }")
            (failing_link (lit "Varyings do not match")).

Definition bad_vertex : Attempt :=
  mkAttempt (lit "void main() { gl_FragColor = vec4(1.0); }")
            (rejecting_vertex (lit "ERROR: 0:2: 'position' : syntax error") true []).

Definition bad_both : Attempt :=
  mkAttempt (lit "void main() { gl_FragColor = foo; }")
            (rejecting_vertex (lit "ERROR: 0:2: 'position' : syntax error") false
               (lit "ERROR: 0:7: 'foo' : undeclared identifier")).

(** A page whose device pixels are half a CSS pixel wide, with a canvas of
    400 by 300 CSS pixels in its top left corner. *)
Definition retina : Viewport.Layout :=
  {| Viewport.clientWidth := 400; Viewport.clientHeight := 300;
     Viewport.devicePixelRatio := 2;
     Viewport.rect_left := 0; Viewport.rect_top := 0 |}.

(** A component mounted at time 0 that plays a program. *)
Definition stage : Loop.Component :=
  {| Loop.life := recompile solid (mount true);
     Loop.view := Viewport.mount retina;
     Loop.loop := Loop.mount 0 true |}.

End Drivers.

(** * More of the sources *)

(** ** ShaderCanvas: leaving the page *)

Module Teardown.

Import Lifecycle Loop.

(** The cleanups that run when the component is removed: the one of the
    effect on [isPlaying] (line 161), and the one of the setup effect (lines
    54-58), which exists only when the effect got as far as a context.  Both
    cancel the pending request. *)
Definition unmount (c : Component) : Component :=
  let l := playCleanup (loop c) in
  with_loop (if glRef (life c) then cancel l else l) c.

End Teardown.

(** ** App: the AI handlers *)

Module Assistant.

Import Gemini.

Inductive Tab := editor | learn | ai.

(** An entry of the chat: [{ role, text }]. *)
Record Message := mkMessage { role : str; text : str }.

(** The states of App the handlers read and write; [code] and its debounce
    are in [source]. *)
Record Panel := mkPanel
  { source : Debounce.App;
    error : option ShaderError;
    activeTab : Tab;
    messages : list Message;
    promptInput : str;
    isAiLoading : bool }.

(** A call of the service a handler is waiting for, with the arguments the
    handler took from the render it was created in. *)
Inductive Request :=
| Explain (code : str)
| Generate (prompt : str)
| Fix (code errorMsg : str).

Definition perform (service : Service) (r : Request) : Completion str :=
  match r with
  | Explain code => generateShaderExplanation service code
  | Generate prompt => generateShaderFromPrompt service prompt
  | Fix code errorMsg => fixShaderCode service code errorMsg
  end.

Definition setCode (now : Z) (c : str) (p : Panel) : Panel :=
  {| source := Debounce.setCode now c (source p); error := error p;
     activeTab := activeTab p; messages := messages p;
     promptInput := promptInput p; isAiLoading := isAiLoading p |}.

Definition setError (e : option ShaderError) (p : Panel) : Panel :=
  {| source := source p; error := e; activeTab := activeTab p;
     messages := messages p; promptInput := promptInput p;
     isAiLoading := isAiLoading p |}.

Definition setActiveTab (t : Tab) (p : Panel) : Panel :=
  {| source := source p; error := error p; activeTab := t;
     messages := messages p; promptInput := promptInput p;
     isAiLoading := isAiLoading p |}.

(** [setMessages(prev => [...prev, m])]. *)
Definition addMessage (m : Message) (p : Panel) : Panel :=
  {| source := source p; error := error p; activeTab := activeTab p;
     messages := messages p ++ [m]; promptInput := promptInput p;
     isAiLoading := isAiLoading p |}.

Definition setPromptInput (s : str) (p : Panel) : Panel :=
  {| source := source p; error := error p; activeTab := activeTab p;
     messages := messages p; promptInput := s;
     isAiLoading := isAiLoading p |}.

Definition setIsAiLoading (b : bool) (p : Panel) : Panel :=
  {| source := source p; error := error p; activeTab := activeTab p;
     messages := messages p; promptInput := promptInput p;
     isAiLoading := b |}.

(** [handleAiExplain] (lines 51-60) up to its [await]: the state it
    leaves, and the call it waits for. *)
Definition handleAiExplain_begin (p : Panel) : Request * Panel :=
  (Explain (Debounce.code (source p)),
   addMessage (mkMessage (lit "user") (lit "Explain this shader code."))
     (setIsAiLoading true (setActiveTab ai p))).

(** [handleAiExplain] from its [await] on, in the state [p] of that time.
    A call that throws ends the handler there. *)
Definition handleAiExplain_end (r : Completion str) (p : Panel) : Panel :=
  match r with
  | Throws _ => p
  | Returns explanation =>
      setIsAiLoading false (addMessage (mkMessage (lit "model") explanation) p)
  end.

(** [handleAiGenerate] (lines 62-78) up to its [await]; [None] when the
    prompt is blank and the handler returns at once. *)
Definition handleAiGenerate_begin (p : Panel) : option Request * Panel :=
  match trim (promptInput p) with
  | [] => (None, p)
  | _ :: _ =>
      (Some (Generate (promptInput p)),
       addMessage (mkMessage (lit "user") (lit "Generate: " ++ promptInput p))
         (setIsAiLoading true p))
  end.

Definition handleAiGenerate_end (now : Z) (r : Completion str) (p : Panel)
  : Panel :=
  match r with
  | Throws _ => p
  | Returns newCode =>
      let p' :=
        if startsWith newCode (lit "// Error")
        then addMessage
               (mkMessage (lit "model") (lit "Sorry, I couldn't generate that shader.")) p
        else addMessage
               (mkMessage (lit "model") (lit "I've updated the editor with your request."))
               (setCode now newCode p) in
      setIsAiLoading false (setPromptInput [] p')
  end.

(** [handleAiFix] (lines 80-86) up to its [await]; [None] when there is no
    error. *)
Definition handleAiFix_begin (p : Panel) : option Request * Panel :=
  match error p with
  | None => (None, p)
  | Some e =>
      (Some (Fix (Debounce.code (source p)) (message e)), setIsAiLoading true p)
  end.

Definition handleAiFix_end (now : Z) (r : Completion str) (p : Panel) : Panel :=
  match r with
  | Throws _ => p
  | Returns fixedCode => setIsAiLoading false (setCode now fixedCode p)
  end.

(** The three handlers. *)
Inductive Handler := AiExplain | AiGenerate | AiFix.

(** What happens to the panel while a handler waits: the learner types,
    time passes, the canvas reports, the prompt or the tab changes; and,
    the buttons of the handlers staying enabled, any of them may be started
    ([Clicked], which runs it up to its [await]), and one started earlier
    may get its answer and run to its end ([Answered]). *)
Inductive Meanwhile :=
| Typed (now : Z) (c : str)
| Reported (e : option ShaderError)
| Prompted (s : str)
| Switched (t : Tab)
| Clicked (h : Handler)
| Answered (h : Handler) (now : Z) (r : Completion str).

Definition meanwhile (m : Meanwhile) (p : Panel) : Panel :=
  match m with
  | Typed now c => setCode now c p
  | Reported e => setError e p
  | Prompted s => setPromptInput s p
  | Switched t => setActiveTab t p
  | Clicked AiExplain => snd (handleAiExplain_begin p)
  | Clicked AiGenerate => snd (handleAiGenerate_begin p)
  | Clicked AiFix => snd (handleAiFix_begin p)
  | Answered AiExplain _ r => handleAiExplain_end r p
  | Answered AiGenerate now r => handleAiGenerate_end now r p
  | Answered AiFix now r => handleAiFix_end now r p
  end.


Definition during (ms : list Meanwhile) (p : Panel) : Panel :=
  fold_left (fun p m => meanwhile m p) ms p.


Definition generate_round (service : Service) (now : Z) (ms : list Meanwhile)
    (p : Panel) : Panel :=
  match handleAiGenerate_begin p with
  | (None, p') => p'
  | (Some r, p') => handleAiGenerate_end now (perform service r) (during ms p')
  end.

Definition fix_round (service : Service) (now : Z) (ms : list Meanwhile)
    (p : Panel) : Panel :=
  match handleAiFix_begin p with
  | (None, p') => p'
  | (Some r, p') => handleAiFix_end now (perform service r) (during ms p')
  end.

(** A panel for concrete runs: the editor holds a broken shader, the
    canvas has reported it, and a prompt is typed. *)
Definition desk : Panel :=
  {| source := Debounce.mount 0 (lit "void main() {");
     error := Some (mkShaderError 1 (lit "ERROR: 0:1: '' : syntax error"));
     activeTab := ai;
     messages := [];
     promptInput := lit "a circle";
     isAiLoading := false |}.

End Assistant.

(** ** CodeEditor: the highlighter *)

Module Editor.

(** [s.replace(/p/g, r)] for a literal, non-empty pattern [p]; as
    [remove_all_from], with [r] put where a match was. *)
Fixpoint replace_all_from (p r : str) (skip : nat) (s : str) : str :=
  match s with
  | [] => []
  | c :: s' =>
      match skip with
      | S k => replace_all_from p r k s'
      | O =>
          if startsWith s p
          then r ++ replace_all_from p r (Nat.pred (length p)) s'
          else c :: replace_all_from p r O s'
      end
  end.

Definition replace_all (p r s : str) : str := replace_all_from p r O s.

(** [safeText] (lines 22-25). *)
Definition escapeHtml (text : str) : str :=
  replace_all (lit ">") (lit "&gt;")
    (replace_all (lit "<") (lit "&lt;")
       (replace_all (lit "&") (lit "&amp;") text)).

(** [keywords] (lines 28-35). *)
Definition keywords : list str :=
  map lit
    ["void"; "float"; "int"; "bool"; "vec2"; "vec3"; "vec4"; "mat2"; "mat3";
     "mat4"; "uniform"; "precision"; "mediump"; "highp"; "lowp";
     "sin"; "cos"; "tan"; "asin"; "acos"; "atan"; "pow"; "exp"; "log"; "sqrt";
     "abs"; "sign"; "floor"; "ceil"; "fract"; "mod"; "min"; "max"; "clamp";
     "mix"; "step"; "smoothstep"; "length"; "distance"; "dot"; "cross";
     "normalize"; "reflect"; "refract";
     "gl_FragCoord"; "gl_FragColor"; "texture2D";
     "return"; "if"; "else"; "for"; "while"; "do"; "break"; "continue";
     "const"; "attribute"; "varying"]%string.

(** [\w]: a letter, a digit or an underscore. *)
Definition is_word (c : N) : bool :=
  (48 <=? c) && (c <=? 57) || (65 <=? c) && (c <=? 90) || (c =? 95)
  || (97 <=? c) && (c <=? 122).

(** [\b] at a place of the string: exactly one of the character before it
    ([None] at the start) and the character after it (none at the end) is a
    word character. *)
Definition boundary (prev : option N) (s : str) : bool :=
  xorb (match prev with Some c => is_word c | None => false end)
       (match s with c :: _ => is_word c | [] => false end).

(** The character before the place reached after [n] characters of [s],
    when [prev] is the one before [s]. *)
Definition before (prev : option N) (n : nat) (s : str) : option N :=
  match n with
  | O => prev
  | S k => match nth_error s k with Some c => Some c | None => prev end
  end.

(** [\b(k1|k2|...)\b] tried at the start of [s]: the alternatives are
    tried in their order, and the first that is followed by a boundary
    wins.  The result is the length of the match. *)
Definition keyword_here (prev : option N) (s : str) : option nat :=
  if boundary prev s then
    match
      List.find (fun k =>
                   match strip_prefix k s with
                   | Some rest => boundary (before prev (length k) s) rest
                   | None => false
                   end) keywords
    with
    | Some k => Some (length k)
    | None => None
    end
  else None.

(** The first of [f n], [f (n - 1)], ..., [f 1] that succeeds: what a
    greedy [+] does when what follows it fails and it gives characters
    back. *)
Fixpoint first_down {A} (f : nat -> option A) (n : nat) : option A :=
  match n with
  | O => None
  | S k =>
      match f n with
      | Some a => Some a
      | None => first_down f k
      end
  end.

(** [(\.\d+)?\b] tried at the start of [s], whose characters follow the
    character [prev]: first with the group, then without it.  The result
    is the number of characters consumed. *)
Definition fraction_here (prev : option N) (s : str) : option nat :=
  match
    match s with
    | 46 :: r =>
        first_down
          (fun j => if boundary (before (Some 46) j r) (drop j r)
                    then Some (S j) else None)
          (length (fst (span_digits r)))
    | _ => None
    end
  with
  | Some n => Some n
  | None => if boundary prev s then Some O else None
  end.

(** [\b\d+(\.\d+)?\b] tried at the start of [s]. *)
Definition number_here (prev : option N) (s : str) : option nat :=
  if boundary prev s then
    first_down
      (fun m =>
         match fraction_here (before prev m s) (drop m s) with
         | Some k => Some (m + k)%nat
         | None => None
         end)
      (length (fst (span_digits s)))
  else None.

Definition quot : str := [34].

Definition span_keyword : str :=
  lit "<span class=" ++ quot ++ lit "text-purple-400 font-bold" ++ quot ++ lit ">".

Definition span_number : str :=
  lit "<span class=" ++ quot ++ lit "text-orange-400" ++ quot ++ lit ">".

Definition span_comment : str :=
  lit "<span class=" ++ quot ++ lit "text-zinc-500" ++ quot ++ lit ">".

Definition span_end : str := lit "</span>".

(** [tokenRegex] tried at the start of [s], and what the callback of
    [replace] returns for the match: the keyword alternative first, then the
    number. *)
Definition token_here (prev : option N) (s : str) : option (nat * str) :=
  match keyword_here prev s with
  | Some n => Some (n, span_keyword ++ take n s ++ span_end)
  | None =>
      match number_here prev s with
      | Some n => Some (n, span_number ++ take n s ++ span_end)
      | None => None
      end
  end.

(** [codePart.replace(tokenRegex, ...)] (lines 56-65): the scan goes left
    to right and goes on after a match; [prev] is the character before the
    place of the scan, which [\b] looks at. *)
Fixpoint replace_tokens_from (skip : nat) (prev : option N) (s : str) : str :=
  match s with
  | [] => []
  | c :: s' =>
      match skip with
      | S k => replace_tokens_from k (Some c) s'
      | O =>
          match token_here prev s with
          | Some (n, markup) =>
              markup ++ replace_tokens_from (Nat.pred n) (Some c) s'
          | None => c :: replace_tokens_from O (Some c) s'
          end
      end
  end.

Definition replace_tokens (s : str) : str := replace_tokens_from O None s.

(** [line.indexOf(p)]; [None] is [-1]. *)
Fixpoint indexOf (s p : str) : option nat :=
  if startsWith s p then Some O
  else match s with
       | [] => None
       | _ :: s' =>
           match indexOf s' p with
           | Some i => Some (S i)
           | None => None
           end
       end.

(** The callback of [map] (lines 44-71). *)
Definition highlight_line (line : str) : str :=
  match indexOf line (lit "//") with
  | Some commentIdx =>
      let codePart := take commentIdx line in
      let commentPart := drop commentIdx line in
      match commentPart with
      | [] => replace_tokens codePart
      | _ :: _ =>
          replace_tokens codePart ++ span_comment ++ commentPart ++ span_end
      end
  | None => replace_tokens line
  end.

(** [s.split('\n')] and [lines.join('\n')]. *)
Fixpoint split_lines (s : str) : list str :=
  match s with
  | [] => [[]]
  | c :: s' =>
      if c =? 10 then [] :: split_lines s'
      else match split_lines s' with
           | l :: ls => (c :: l) :: ls
           | [] => [[c]]
           end
  end.

Fixpoint join_lines (ls : list str) : str :=
  match ls with
  | [] => []
  | l :: ls' =>
      match ls' with
      | [] => l
      | _ :: _ => l ++ 10 :: join_lines ls'
      end
  end.

(** [highlight] (lines 20-72). *)
Definition highlight (text : str) : str :=
  join_lines (map highlight_line (split_lines (escapeHtml text))).

End Editor.

(** ** Notions the further statements use *)

Module Further.

Import Lifecycle Loop.



(** The render loop is steady: while playing exactly one callback waits
    for the next refresh, the one [requestRef] holds; while paused none
    does. *)
Definition Steady (l : Scheduler) : Prop :=
  if isPlaying l
  then exists h, callbacks l = [(h, true)] /\ requestRef l = Some h
  else callbacks l = [].

(** The pending timer of the debounce carries the text of the editor, and
    with no timer pending the canvas has that text. *)
Definition InSync (a : Debounce.App) : Prop :=
  match Debounce.timer a with
  | Some (_, c) => c = Debounce.code a
  | None => Debounce.runnableCode a = Debounce.code a
  end.

(** The markup without its tags: what is between a [<] and the next [>],
    and the two, is dropped. *)
Fixpoint strip_tags_from (in_tag : bool) (s : str) : str :=
  match s with
  | [] => []
  | c :: s' =>
      if in_tag then strip_tags_from (negb (c =? 62)) s'
      else if c =? 60 then strip_tags_from true s'
      else c :: strip_tags_from false s'
  end.

Definition strip_tags (s : str) : str := strip_tags_from false s.

(** The number of line breaks of a text. *)
Definition newlines (s : str) : nat := count_occ N.eq_dec s 10.

(** What [escapeHtml] puts for one character. *)
Definition entity (c : N) : str :=
  if c =? 38 then lit "&amp;"
  else if c =? 60 then lit "&lt;"
  else if c =? 62 then lit "&gt;"
  else [c].

(** A tag: a [<], then characters other than [>], then a [>]. *)
Definition is_tag (t : str) : bool :=
  match t with
  | c :: b =>
      (c =? 60)
      && match rev b with
         | e :: m => (e =? 62) && forallb (fun x => negb (x =? 62)) m
         | [] => false
         end
  | [] => false
  end.




(** The number [n / 2^j]. *)
Definition dyadic (n : Z) (j : nat) : Q := n # Pos.shiftl_nat 1 j.

(** No text occurs twice in a row. *)
Fixpoint NoRepeat (l : list str) : Prop :=
  match l with
  | a :: (b :: _) as t => a <> b /\ NoRepeat t
  | _ => True
  end.

End Further.

Import Notions.

(** * Properties *)

(** ** Strings *)

Section StringFacts.

Implicit Types (p s r d : str) (c : N).

Lemma strip_prefix_app p s : strip_prefix p (p ++ s) = Some s.
Proof.
  induction p as [|a p IH]; simpl; [done|].
  by rewrite N.eqb_refl.
Qed.

Lemma strip_prefix_Some p s r : strip_prefix p s = Some r -> s = p ++ r.
Proof.
  revert s. induction p as [|a p IH]; intros [|b s]; simpl; try congruence.
  destruct (N.eqb_spec a b) as [->|]; [|done].
  intros H. by rewrite (IH _ H).
Qed.

Lemma startsWith_true s p :
  startsWith s p = true <-> exists r, s = p ++ r.
Proof.
  unfold startsWith. split.
  - destruct (strip_prefix p s) as [r|] eqn:E; [|done].
    intros _. exists r. by apply strip_prefix_Some.
  - intros [r ->]. by rewrite strip_prefix_app.
Qed.

Lemma includes_true s p :
  includes s p = true <-> exists pre post, s = pre ++ p ++ post.
Proof.
  split.
  - induction s as [|c s IH]; simpl.
    + rewrite orb_false_r. intros [r ->]%startsWith_true. by exists [], r.
    + intros [[r ->]%startsWith_true | H]%orb_true_iff.
      * by exists [], r.
      * destruct (IH H) as (pre & post & ->). by exists (c :: pre), post.
  - intros (pre & post & ->).
    induction pre as [|c pre IH]; simpl.
    + destruct (p ++ post) eqn:E; simpl.
      * rewrite orb_false_r. apply startsWith_true. exists post.
        by rewrite E.
      * apply orb_true_iff. left. apply startsWith_true. exists post.
        by rewrite E.
    + apply orb_true_iff. by right.
Qed.

Lemma includes_false_infix s p pre post :
  includes (pre ++ s ++ post) p = false -> includes s p = false.
Proof.
  intros H. destruct (includes s p) eqn:E; [|done].
  apply includes_true in E as (a & b & ->).
  rewrite <- H. symmetry. apply includes_true.
  exists (pre ++ a), (b ++ post). by rewrite <- !app_assoc.
Qed.

Lemma includes_longer s p q :
  includes s p = false -> includes s (p ++ q) = false.
Proof.
  intros H. destruct (includes s (p ++ q)) eqn:E; [|done].
  apply includes_true in E as (a & b & ->).
  rewrite <- H. symmetry. apply includes_true.
  exists a, (q ++ b). by rewrite <- !app_assoc.
Qed.

(** *** Trimming *)

Lemma trimStart_suffix s : exists w, s = w ++ trimStart s.
Proof.
  induction s as [|c s [w IH]]; simpl; [by exists []|].
  destruct (is_space c).
  - exists (c :: w). simpl. by f_equal.
  - by exists [].
Qed.

Lemma trimStart_head s c r : trimStart s = c :: r -> is_space c = false.
Proof.
  induction s as [|a s IH]; simpl; [done|].
  destruct (is_space a) eqn:E; [done|]. by intros [= <- _].
Qed.

Lemma trimStart_id c s : is_space c = false -> trimStart (c :: s) = c :: s.
Proof. intros H. simpl. by rewrite H. Qed.

Lemma trimEnd_prefix s : exists w, s = trimEnd s ++ w.
Proof.
  unfold trimEnd. destruct (trimStart_suffix (rev s)) as [w H].
  exists (rev w). rewrite <- rev_app_distr, <- H. by rewrite rev_involutive.
Qed.

Lemma trimEnd_last s r c : trimEnd s = r ++ [c] -> is_space c = false.
Proof.
  unfold trimEnd. intros H.
  apply (f_equal (@rev N)) in H. rewrite rev_involutive, rev_app_distr in H.
  simpl in H. by apply trimStart_head in H.
Qed.

Lemma trim_infix s : exists w1 w2, s = w1 ++ trim s ++ w2.
Proof.
  unfold trim. destruct (trimStart_suffix s) as [w1 H1].
  destruct (trimEnd_prefix (trimStart s)) as [w2 H2].
  exists w1, w2. by rewrite <- H2.
Qed.

Lemma trim_head s c r : trim s = c :: r -> is_space c = false.
Proof.
  unfold trim. intros H.
  destruct (trimEnd_prefix (trimStart s)) as [w Hw].
  rewrite H in Hw. simpl in Hw. by apply trimStart_head in Hw.
Qed.

Lemma trim_last s r c : trim s = r ++ [c] -> is_space c = false.
Proof. apply trimEnd_last. Qed.

Lemma includes_trim s p : includes s p = false -> includes (trim s) p = false.
Proof.
  destruct (trim_infix s) as (w1 & w2 & H). intros Hs.
  rewrite H in Hs. by apply includes_false_infix in Hs.
Qed.

End StringFacts.

(** *** Removing every match of a pattern *)

Section RemoveAll.

Implicit Types (p s r : str) (c : N).

Lemma remove_all_from_drop p k s :
  remove_all_from p k s = remove_all p (drop k s).
Proof.
  revert k. induction s as [|c s IH]; intros [|k]; simpl; auto.
Qed.

Lemma remove_all_match p c s :
  startsWith (c :: s) p = true ->
  remove_all p (c :: s) = remove_all p (drop (Nat.pred (length p)) s).
Proof.
  intros H. unfold remove_all at 1. simpl. rewrite H.
  apply remove_all_from_drop.
Qed.

Lemma remove_all_no_match p c s :
  startsWith (c :: s) p = false ->
  remove_all p (c :: s) = c :: remove_all p s.
Proof. intros H. unfold remove_all. simpl. by rewrite H. Qed.

Lemma lit_fence : lit "```" = fence.
Proof. reflexivity. Qed.

Lemma startsWith_fence s :
  startsWith s fence = true <-> (3 <= backticks s)%nat.
Proof.
  split.
  - intros [r ->]%startsWith_true. simpl. lia.
  - destruct s as [|a [|b [|c r]]]; simpl; try lia.
    + destruct (a =? 96); lia.
    + destruct (a =? 96); [destruct (b =? 96)|]; lia.
    + destruct (N.eqb_spec a 96) as [->|]; [|lia].
      destruct (N.eqb_spec b 96) as [->|]; [|lia].
      destruct (N.eqb_spec c 96) as [->|]; [|lia].
      intros _. apply startsWith_true. by exists r.
Qed.

Lemma remove_fence_match r :
  remove_all fence (fence ++ r) = remove_all fence r.
Proof.
  change (fence ++ r) with (96 :: 96 :: 96 :: r).
  rewrite remove_all_match; [done|].
  apply startsWith_true. by exists r.
Qed.

Lemma backticks_fence r : backticks (fence ++ r) = S (S (S (backticks r))).
Proof. reflexivity. Qed.

Lemma remove_fence_backticks s :
  (backticks (remove_all fence s) <= backticks s)%nat
  /\ (backticks (remove_all fence s) < 3)%nat.
Proof.
  remember (length s) as n eqn:Hn. revert s Hn.
  induction n as [n IH] using lt_wf_ind. intros [|c s] Hn.
  - simpl. lia.
  - destruct (startsWith (c :: s) fence) eqn:E.
    + apply startsWith_true in E as [r E]. rewrite E in Hn |- *.
      rewrite remove_fence_match, backticks_fence.
      rewrite length_app in Hn. simpl in Hn.
      destruct (IH (length r) ltac:(lia) r eq_refl). lia.
    + rewrite (remove_all_no_match _ _ _ E).
      assert (~ (3 <= backticks (c :: s))%nat) as Hlt.
      { rewrite <- startsWith_fence. by rewrite E. }
      simpl in Hn. destruct (IH (length s) ltac:(lia) s eq_refl) as [Hle _].
      destruct (N.eq_dec c 96) as [->|Hc].
      * clear E. simpl in *. split; lia.
      * simpl. apply N.eqb_neq in Hc. rewrite Hc. lia.
Qed.

(** After [replace(/```/g, '')] no fence is left: a run of backticks is
    cut down to fewer than three, and what separates two runs stays. *)
Lemma remove_fence_includes s : includes (remove_all fence s) fence = false.
Proof.
  remember (length s) as n eqn:Hn. revert s Hn.
  induction n as [n IH] using lt_wf_ind. intros [|c s] Hn.
  - done.
  - destruct (startsWith (c :: s) fence) eqn:E.
    + apply startsWith_true in E as [r E]. rewrite E in Hn |- *.
      rewrite remove_fence_match.
      rewrite length_app in Hn. simpl in Hn.
      apply (IH (length r)); [lia|done].
    + pose proof (remove_fence_backticks (c :: s)) as [_ Hlt].
      rewrite (remove_all_no_match _ _ _ E) in *.
      simpl in Hn. cbn [includes].
      rewrite (IH (length s) ltac:(lia) s eq_refl), orb_false_r.
      destruct (startsWith (c :: remove_all fence s) fence) eqn:E'; [|done].
      apply startsWith_fence in E'. lia.
Qed.

End RemoveAll.

(** ** The diagnostic extraction *)

Section ExtractFacts.

Implicit Types (s r d ln pre : str) (c : N).

Lemma span_digits_spec s d r :
  span_digits s = (d, r) ->
  s = d ++ r /\ digits d /\ match r with c :: _ => is_digit c = false | [] => True end.
Proof.
  revert d r. induction s as [|c s IH]; simpl; intros d r.
  - intros [= <- <-]. repeat split. constructor.
  - destruct (is_digit c) eqn:E.
    + destruct (span_digits s) as [d' r'] eqn:E'. intros [= <- <-].
      destruct (IH _ _ eq_refl) as (-> & Hd & Hr).
      repeat split; [by constructor|done].
    + intros [= <- <-]. repeat split; [constructor|done].
Qed.

Lemma span_digits_app d c r :
  digits d -> is_digit c = false -> span_digits (d ++ c :: r) = (d, c :: r).
Proof.
  intros Hd Hc. induction Hd as [|a d Ha Hd IH]; simpl.
  - by rewrite Hc.
  - by rewrite Ha, IH.
Qed.

Lemma span_digits_all d : digits d -> span_digits d = (d, []).
Proof.
  induction 1 as [|a d Ha Hd IH]; simpl; [done|]. by rewrite Ha, IH.
Qed.

Lemma parseInt_digits d : digits d -> parseInt d = decimal d.
Proof. intros H. unfold parseInt. by rewrite span_digits_all. Qed.

Lemma match_here_Matches s ln : match_here s = Some ln <-> Matches s ln.
Proof.
  unfold match_here. split.
  - destruct (strip_prefix _ s) as [r0|] eqn:E0; [|done].
    apply strip_prefix_Some in E0 as ->.
    destruct (span_digits r0) as [[|a id] [|c1 r1]] eqn:E1; try done.
    destruct (N.eqb_spec c1 58) as [->|Hne]; cycle 1.
    { destruct c1 as [|q]; [done|]. repeat (destruct q as [q|q|]; try done). }
    destruct (span_digits r1) as [[|b d] [|c2 r2]] eqn:E2; try done.
    destruct (N.eqb_spec c2 58) as [->|Hne]; cycle 1.
    { destruct c2 as [|q]; [done|]. repeat (destruct q as [q|q|]; try done). }
    intros [= <-].
    apply span_digits_spec in E1 as (-> & H1 & _).
    apply span_digits_spec in E2 as (-> & H2 & _).
    exists (a :: id), r2. repeat split; done.
  - intros (id & post & Hid & Hne & Hln & Hne' & ->).
    rewrite strip_prefix_app.
    change (lit ":") with [58].
    replace (id ++ [58] ++ ln ++ [58] ++ post)
      with (id ++ 58 :: (ln ++ 58 :: post)) by done.
    rewrite span_digits_app by done.
    destruct id as [|a id]; [done|].
    rewrite span_digits_app by done.
    by destruct ln.
Qed.

Lemma match_here_None s : match_here s = None <-> forall ln, ~ Matches s ln.
Proof.
  split.
  - intros H ln Hm. apply match_here_Matches in Hm. congruence.
  - intros H. destruct (match_here s) as [ln|] eqn:E; [|done].
    apply match_here_Matches in E. by destruct (H ln).
Qed.

Lemma regex_match_unfold s :
  regex_match s =
  match match_here s with
  | Some d => Some d
  | None => match s with [] => None | _ :: s' => regex_match s' end
  end.
Proof. by destruct s. Qed.

Lemma regex_match_first rawLog pre ln :
  FirstMatch rawLog pre ln -> regex_match rawLog = Some ln.
Proof.
  intros [(s & -> & Hm) Hno]. induction pre as [|c pre IH].
  - simpl. rewrite regex_match_unfold.
    apply match_here_Matches in Hm. by rewrite Hm.
  - rewrite regex_match_unfold.
    replace (match_here ((c :: pre) ++ s)) with (@None str); cycle 1.
    { symmetry. apply match_here_None. intros ln'.
      apply (Hno O ln'). simpl. lia. }
    simpl. apply IH. intros k ln' Hk.
    apply (Hno (S k) ln'). simpl. lia.
Qed.

Lemma regex_match_none rawLog : NoMatch rawLog -> regex_match rawLog = None.
Proof.
  unfold NoMatch. induction rawLog as [|c s IH]; intros Hno.
  - rewrite regex_match_unfold.
    replace (match_here []) with (@None str); [done|].
    symmetry. apply match_here_None. intros ln. apply (Hno O ln).
  - rewrite regex_match_unfold.
    replace (match_here (c :: s)) with (@None str); cycle 1.
    { symmetry. apply match_here_None. intros ln. apply (Hno O ln). }
    apply IH. intros k ln. apply (Hno (S k) ln).
Qed.

Lemma Matches_digits s ln : Matches s ln -> digits ln.
Proof. by intros (? & ? & ? & ? & ? & ? & ?). Qed.

End ExtractFacts.

(** C2, as amended.  The extraction is total and keeps the whole log as the
    message.  When the log holds "ERROR: ", a run of decimal digits, a
    colon, a run of decimal digits and a colon, the line is the value of the
    second run at the leftmost such place (as long as a double holds that
    value exactly); when it holds no such text, the line is 0.  The two
    logs of the specification give line 7 and line 0. *)
Theorem extract_leftmost_decimal :
  (forall rawLog,
      message (extract rawLog) = rawLog
      /\ (forall pre ln,
             FirstMatch rawLog pre ln ->
             decimal ln <= MAX_SAFE_INTEGER ->
             line (extract rawLog) = decimal ln)
      /\ (NoMatch rawLog -> line (extract rawLog) = 0))
  /\ extract (lit "ERROR: 0:7: 'foo' : undeclared identifier")
     = {| line := 7;
          message := lit "ERROR: 0:7: 'foo' : undeclared identifier" |}
  /\ extract (lit "no recognizable pattern here")
     = {| line := 0; message := lit "no recognizable pattern here" |}.
Proof.
  split; [|split; reflexivity].
  intros rawLog. split; [|split].
  - unfold extract. by destruct (regex_match rawLog).
  - intros pre ln Hfirst _. unfold extract.
    rewrite (regex_match_first _ _ _ Hfirst). simpl.
    destruct Hfirst as [(s & _ & Hm) _].
    apply parseInt_digits. by apply Matches_digits in Hm.
  - intros Hno. unfold extract. by rewrite regex_match_none.
Qed.

Lemma extract_leftmost_decimal_witness :
  line (extract (lit "warning; ERROR: 0:12: bad ERROR: 1:3: worse")) = 12
  /\ line (extract (lit "ERROR: 0:x")) = 0.
Proof.
  destruct extract_leftmost_decimal as [H _]. split.
  - apply (proj1 (proj2 (H (lit "warning; ERROR: 0:12: bad ERROR: 1:3: worse")))
             (lit "warning; ") (lit "12")).
    + split.
      * exists (lit "ERROR: 0:12: bad ERROR: 1:3: worse"). split; [reflexivity|].
        exists (lit "0"), (lit " bad ERROR: 1:3: worse").
        repeat split; try discriminate; try reflexivity;
          repeat constructor.
      * intros k ln' Hk. apply match_here_None.
        do 9 (destruct k as [|k]; [reflexivity|]).
        vm_compute in Hk. lia.
    + vm_compute. discriminate.
  - apply (proj2 (proj2 (H (lit "ERROR: 0:x")))).
    intros k ln. apply match_here_None.
    do 10 (destruct k as [|k]; [reflexivity|]).
    by destruct k.
Defined.

(** C2, as stated, fails: a log whose shader identifier is not a run of
    decimal digits has the shape "ERROR: <shaderId>:<lineNumber>:", and its
    line is not read. *)
Lemma extract_identifier_not_read :
  lit "ERROR: main:7: 'foo' : undeclared identifier"
  = lit "ERROR: " ++ lit "main" ++ lit ":" ++ lit "7" ++ lit ":"
    ++ lit " 'foo' : undeclared identifier"
  /\ decimal (lit "7") = 7
  /\ extract (lit "ERROR: main:7: 'foo' : undeclared identifier")
     = {| line := 0;
          message := lit "ERROR: main:7: 'foo' : undeclared identifier" |}.
Proof. repeat split; reflexivity. Qed.

(** ** The AI operations *)

Section GeminiFacts.

Import Gemini.

Lemma cleanup_Clean text : Clean (cleanup text).
Proof.
  unfold Clean, cleanup.
  assert (includes (trim (remove_all (lit "```") (remove_all (lit "```glsl") text)))
                   (lit "```") = false) as H.
  { apply includes_trim. rewrite lit_fence. apply remove_fence_includes. }
  split; [done|]. split.
  - change (lit "```glsl") with (lit "```" ++ lit "glsl").
    by apply includes_longer.
  - split; intros ? ?; [apply trim_head | apply trim_last].
Qed.

(** C10.  Whatever text the model answers with, what the generation
    operation returns, and what the fix operation returns when the call went
    through, holds no "```" and no "```glsl" and neither starts nor ends with
    white space. *)
Theorem returned_code_is_clean (ai : Service) (prompt code errorMsg : str)
    (text : option str) :
  (ai (generation_contents prompt) = Fulfils text ->
   exists r, generateShaderFromPrompt ai prompt = Returns r /\ Clean r)
  /\ (ai (fix_contents code errorMsg) = Fulfils text ->
      exists r, fixShaderCode ai code errorMsg = Returns r /\ Clean r).
Proof.
  split; intros H.
  - unfold generateShaderFromPrompt. rewrite H. simpl.
    eexists. split; [reflexivity|]. apply cleanup_Clean.
  - unfold fixShaderCode. rewrite H. simpl.
    eexists. split; [reflexivity|]. apply cleanup_Clean.
Qed.

Lemma returned_code_is_clean_witness :
  (exists r,
      generateShaderFromPrompt
        (fun _ => Fulfils (Some (lit "```glsl
void main() {}
```
"))) (lit "a circle") = Returns r /\ Clean r)
  /\ (exists r,
         fixShaderCode
           (fun _ => Fulfils (Some (lit "```glsl
void main() {}
```
"))) (lit "void main() {") (lit "ERROR: 0:1: syntax error") = Returns r
         /\ Clean r).
Proof.
  split.
  - apply (proj1 (returned_code_is_clean _ (lit "a circle") [] []
                    (Some (lit "```glsl
void main() {}
```
")))).
    reflexivity.
  - apply (proj2 (returned_code_is_clean _ [] (lit "void main() {")
                    (lit "ERROR: 0:1: syntax error")
                    (Some (lit "```glsl
void main() {}
```
")))).
    reflexivity.
Defined.

(** C8.  Each of the three operations returns a string whatever the service
    does, and throws nothing.  When the call rejects, the fix operation
    returns the source it was given, the generation operation returns a
    string that starts with "// Error", and the explanation operation
    returns "Failed to connect to AI service.". *)
Theorem ai_operations_never_throw (ai : Service) (code prompt errorMsg : str) :
  (exists r, generateShaderExplanation ai code = Returns r)
  /\ (exists r, generateShaderFromPrompt ai prompt = Returns r)
  /\ (exists r, fixShaderCode ai code errorMsg = Returns r)
  /\ (forall e, ai (fix_contents code errorMsg) = Rejects e ->
        fixShaderCode ai code errorMsg = Returns code)
  /\ (forall e, ai (generation_contents prompt) = Rejects e ->
        exists r, generateShaderFromPrompt ai prompt = Returns r
                  /\ startsWith r (lit "// Error") = true)
  /\ (forall e, ai (explanation_contents code) = Rejects e ->
        generateShaderExplanation ai code
        = Returns (lit "Failed to connect to AI service.")).
Proof.
  unfold generateShaderExplanation, generateShaderFromPrompt, fixShaderCode.
  repeat split.
  - destruct (ai (explanation_contents code)); simpl; eauto.
  - destruct (ai (generation_contents prompt)); simpl; eauto.
  - destruct (ai (fix_contents code errorMsg)); simpl; eauto.
  - intros e ->. reflexivity.
  - intros e ->. simpl. eexists. split; reflexivity.
  - intros e ->. reflexivity.
Qed.

Lemma ai_operations_never_throw_witness :
  fixShaderCode (fun _ => Rejects (lit "503")) (lit "void main() {")
                (lit "ERROR: 0:1: syntax error")
  = Returns (lit "void main() {")
  /\ (exists r,
         generateShaderFromPrompt (fun _ => Rejects (lit "503")) (lit "a circle")
         = Returns r /\ startsWith r (lit "// Error") = true)
  /\ generateShaderExplanation (fun _ => Rejects (lit "503")) (lit "void main() {")
     = Returns (lit "Failed to connect to AI service.").
Proof.
  pose proof (ai_operations_never_throw (fun _ => Rejects (lit "503"))
                (lit "void main() {") (lit "a circle")
                (lit "ERROR: 0:1: syntax error")) as (_ & _ & _ & Hf & Hg & He).
  split; [|split].
  - apply (Hf (lit "503")). reflexivity.
  - apply (Hg (lit "503")). reflexivity.
  - apply (He (lit "503")). reflexivity.
Defined.

End GeminiFacts.

(** ** The program lifecycle *)

Section LifecycleFacts.

Import Lifecycle.

Implicit Types (s : Session) (a : Attempt) (l : list Attempt).

Ltac run_effect :=
  unfold recompile, exec, compileEffect, compileShader, createShader,
    createProgram, bind, ret, fresh, get_glRef, get_programRef,
    set_programRef, deleteShader, deleteProgram, linkProgram, onCompileError,
    console_error, setupGeometry, succeeds, stage_ok, links in *;
  simpl in *.

(** Every answer the driver may give during one attempt. *)
Ltac answers cs st lg cp lk :=
  destruct (cs VERTEX_SHADER) eqn:?, (st VERTEX_SHADER) eqn:?,
    (cs FRAGMENT_SHADER) eqn:?, (st FRAGMENT_SHADER) eqn:?,
    (lg FRAGMENT_SHADER) as [[|? ?]|] eqn:?, cp, lk;
  simpl in *.

Lemma recompile_glRef a s : glRef (recompile a s) = glRef s.
Proof.
  destruct a as [src [cs st lg cp lk pl]], s as [[] [old|] ? ? ? ? ? ? ?];
    run_effect; try done.
  all: answers cs st lg cp lk; done.
Qed.

Lemma recompile_all_glRef l s : glRef (recompile_all l s) = glRef s.
Proof.
  revert s. induction l as [|a l IH]; intros s; simpl; [done|].
  unfold recompile_all in *. simpl. by rewrite IH, recompile_glRef.
Qed.

Lemma succeeds_glRef s s' a : glRef s = glRef s' -> succeeds s a = succeeds s' a.
Proof. unfold succeeds. by intros ->. Qed.

(** A failed attempt leaves the program alone. *)
Lemma recompile_failure a s :
  succeeds s a = false ->
  programRef (recompile a s) = programRef s
  /\ deletedPrograms (recompile a s) = deletedPrograms s.
Proof.
  destruct a as [src [cs st lg cp lk pl]], s as [[] [old|] ? ? ? ? ? ? ?];
    run_effect; try done.
  all: answers cs st lg cp lk; done.
Qed.

(** An attempt that goes through installs a new program. *)
Lemma recompile_success a s :
  succeeds s a = true ->
  programRef (recompile a s)
  = Some (mkProgram (N.succ (N.succ (next_name s)))
            (mkShader (next_name s) VERTEX_SHADER DEFAULT_VERTEX_SHADER)
            (mkShader (N.succ (next_name s)) FRAGMENT_SHADER (source a)))
  /\ deletedPrograms (recompile a s)
     = match programRef s with
       | Some old => program_name old :: deletedPrograms s
       | None => deletedPrograms s
       end
  /\ reported (recompile a s) = None :: reported s
  /\ next_name (recompile a s) = N.succ (N.succ (N.succ (N.succ (next_name s)))).
Proof.
  destruct a as [src [cs st lg cp lk pl]], s as [[] [old|] ? ? ? ? ? ? ?];
    run_effect; try done.
  all: answers cs st lg cp lk; done.
Qed.

Lemma recompile_next_name a s : next_name s <= next_name (recompile a s).
Proof.
  destruct a as [src [cs st lg cp lk pl]], s as [[] [old|] ? ? ? ? ? ? ?];
    run_effect; try lia.
  all: answers cs st lg cp lk; lia.
Qed.

Lemma last_success_glRef s s' l :
  glRef s = glRef s' -> last_success s l = last_success s' l.
Proof.
  intros H. induction l as [|a l IH]; simpl; [done|].
  by rewrite IH, (succeeds_glRef _ _ _ H).
Qed.

Lemma recompile_all_cons a l s :
  recompile_all (a :: l) s = recompile_all l (recompile a s).
Proof. done. Qed.

Lemma recompile_all_app l1 l2 s :
  recompile_all (l1 ++ l2) s = recompile_all l2 (recompile_all l1 s).
Proof. unfold recompile_all. apply fold_left_app. Qed.

Lemma succeeds_false_iff s a :
  succeeds s a = false <->
  glRef s = false \/ stage_ok (driver a) VERTEX_SHADER = false
  \/ stage_ok (driver a) FRAGMENT_SHADER = false \/ links (driver a) = false.
Proof.
  unfold succeeds.
  destruct (glRef s), (stage_ok _ VERTEX_SHADER), (stage_ok _ FRAGMENT_SHADER),
    (links _); simpl; intuition congruence.
Qed.

(** C1.  After any sequence of recompile attempts the active program is the
    one built from the fragment source of the most recent attempt that went
    through, and the program there was before when none did; an attempt in
    which the vertex stage, the fragment stage or the link fails leaves the
    active program in place, and does not delete it. *)
Theorem active_program_is_latest_success s l :
  fragment_of <$> programRef (recompile_all l s)
  = match last_success s l with
    | Some a => Some (source a)
    | None => fragment_of <$> programRef s
    end
  /\ (last_success s l = None -> programRef (recompile_all l s) = programRef s)
  /\ (forall a,
        stage_ok (driver a) VERTEX_SHADER = false
        \/ stage_ok (driver a) FRAGMENT_SHADER = false
        \/ links (driver a) = false ->
        programRef (recompile a s) = programRef s
        /\ deletedPrograms (recompile a s) = deletedPrograms s).
Proof.
  split; [|split].
  - revert s. induction l as [|a l IH]; intros s; [done|].
    rewrite recompile_all_cons, IH. simpl.
    rewrite (last_success_glRef (recompile a s) s) by apply recompile_glRef.
    destruct (last_success s l); [done|].
    destruct (succeeds s a) eqn:E.
    + by destruct (recompile_success a s E) as (-> & _).
    + by destruct (recompile_failure a s E) as (-> & _).
  - revert s. induction l as [|a l IH]; intros s; [done|].
    rewrite recompile_all_cons. simpl.
    destruct (last_success s l) eqn:El; [done|].
    destruct (succeeds s a) eqn:E; [done|]. intros _.
    rewrite IH.
    + by destruct (recompile_failure a s E) as (-> & _).
    + by rewrite (last_success_glRef _ s) by apply recompile_glRef.
  - intros a H. apply recompile_failure, succeeds_false_iff. tauto.
Qed.

Lemma active_program_is_latest_success_witness :
  programRef (recompile_all [Drivers.broken] (recompile Drivers.solid (mount true)))
  = programRef (recompile Drivers.solid (mount true))
  /\ programRef (recompile Drivers.broken (recompile Drivers.solid (mount true)))
     = programRef (recompile Drivers.solid (mount true))
  /\ deletedPrograms (recompile Drivers.broken (recompile Drivers.solid (mount true)))
     = deletedPrograms (recompile Drivers.solid (mount true)).
Proof.
  pose proof (active_program_is_latest_success
                (recompile Drivers.solid (mount true)) [Drivers.broken])
    as (_ & Hnone & Hfail).
  split.
  - apply Hnone. reflexivity.
  - apply Hfail. right. left. reflexivity.
Defined.

(** *** Destroying the replaced program *)

Lemma NamesFresh_mount gl : NamesFresh (mount gl).
Proof. split; [done|]. by intros n _. Qed.

Lemma NamesFresh_recompile a s : NamesFresh s -> NamesFresh (recompile a s).
Proof.
  intros [Hact Hnew]. pose proof (recompile_next_name a s) as Hnext.
  destruct (succeeds s a) eqn:E.
  - destruct (recompile_success a s E) as (Hp & Hd & _ & Hn).
    unfold NamesFresh, destroyed in *. rewrite Hp, Hd, Hn. split.
    + intros p [= <-]. simpl. split; [lia|].
      destruct (programRef s) as [old|] eqn:Eo.
      * destruct (Hact old eq_refl) as [Hlt _].
        rewrite count_occ_cons_neq by lia. apply Hnew. lia.
      * apply Hnew. lia.
    + intros n Hle. destruct (programRef s) as [old|] eqn:Eo.
      * destruct (Hact old eq_refl) as [Hlt _].
        rewrite count_occ_cons_neq by lia. apply Hnew. lia.
      * apply Hnew. lia.
  - destruct (recompile_failure a s E) as (Hp & Hd).
    unfold NamesFresh, destroyed in *. rewrite Hp, Hd. split.
    + intros p Hs. destruct (Hact p Hs). split; [lia|done].
    + intros n Hle. apply Hnew. lia.
Qed.

Lemma NamesFresh_recompile_all l s :
  NamesFresh s -> NamesFresh (recompile_all l s).
Proof.
  revert s. induction l as [|a l IH]; intros s H; [done|].
  rewrite recompile_all_cons. by apply IH, NamesFresh_recompile.
Qed.

(** A program that is no longer active is never deleted again. *)
Lemma destroyed_stable a s n :
  NamesFresh s -> n < next_name s ->
  (forall p, programRef s = Some p -> program_name p <> n) ->
  destroyed (recompile a s) n = destroyed s n
  /\ n < next_name (recompile a s)
  /\ (forall p, programRef (recompile a s) = Some p -> program_name p <> n).
Proof.
  intros [Hact Hnew] Hn Hne. pose proof (recompile_next_name a s) as Hnext.
  split; [|split; [lia|]].
  - destruct (succeeds s a) eqn:E.
    + destruct (recompile_success a s E) as (_ & Hd & _).
      unfold destroyed. rewrite Hd.
      destruct (programRef s) as [old|] eqn:Eo; [|done].
      by rewrite count_occ_cons_neq by by apply Hne.
    + destruct (recompile_failure a s E) as (_ & Hd).
      unfold destroyed. by rewrite Hd.
  - destruct (succeeds s a) eqn:E.
    + destruct (recompile_success a s E) as (Hp & _).
      rewrite Hp. intros p [= <-]. simpl. lia.
    + destruct (recompile_failure a s E) as (Hp & _). by rewrite Hp.
Qed.

Lemma destroyed_stable_all l s n :
  NamesFresh s -> n < next_name s ->
  (forall p, programRef s = Some p -> program_name p <> n) ->
  destroyed (recompile_all l s) n = destroyed s n.
Proof.
  revert s. induction l as [|a l IH]; intros s Hf Hn Hne; [done|].
  rewrite recompile_all_cons.
  destruct (destroyed_stable a s n Hf Hn Hne) as (<- & Hn' & Hne').
  apply IH; [by apply NamesFresh_recompile|done|done].
Qed.

(** C5.  In a component that has seen the attempts [pre], an attempt that
    goes through installs the program built from its source and clears the
    diagnostic; the program that was active before is deleted by it, once,
    and whatever attempts [post] follow never delete it again.  In
    particular, when of three attempts the first and the third go through
    and the second fails, the third's program ends up active and the
    first's has been deleted exactly once. *)
Theorem success_replaces_and_destroys_once
    (gl : bool) (pre post : list Attempt) (a : Attempt) :
  succeeds (recompile_all pre (mount gl)) a = true ->
  (exists p', programRef (recompile a (recompile_all pre (mount gl))) = Some p'
              /\ fragment_of p' = source a)
  /\ error (recompile a (recompile_all pre (mount gl))) = None
  /\ (forall p, programRef (recompile_all pre (mount gl)) = Some p ->
         programRef (recompile a (recompile_all pre (mount gl))) <> Some p
         /\ destroyed (recompile_all pre (mount gl)) (program_name p) = 0%nat
         /\ destroyed (recompile a (recompile_all pre (mount gl)))
                      (program_name p) = 1%nat
         /\ destroyed (recompile_all post (recompile a (recompile_all pre (mount gl))))
                      (program_name p) = 1%nat)
  /\ (forall a1 a2,
         pre = [a1; a2] ->
         succeeds (mount gl) a1 = true -> succeeds (mount gl) a2 = false ->
         exists p1 p3,
           programRef (recompile a1 (mount gl)) = Some p1
           /\ programRef (recompile_all [a1; a2; a] (mount gl)) = Some p3
           /\ fragment_of p3 = source a
           /\ p3 <> p1
           /\ destroyed (recompile_all [a1; a2; a] (mount gl))
                        (program_name p1) = 1%nat).
Proof.
  set (s := recompile_all pre (mount gl)). set (s' := recompile a s).
  intros Hok.
  assert (NamesFresh s) as Hs by apply NamesFresh_recompile_all, NamesFresh_mount.
  assert (NamesFresh s') as Hs' by by apply NamesFresh_recompile.
  destruct (recompile_success a s Hok) as (Hp & Hd & Hr & Hn). fold s' in Hp, Hd, Hr, Hn.
  assert (forall p, programRef s = Some p ->
            programRef s' <> Some p
            /\ destroyed s (program_name p) = 0%nat
            /\ destroyed s' (program_name p) = 1%nat
            /\ destroyed (recompile_all post s') (program_name p) = 1%nat) as Hold.
  { intros p Hpo. destruct Hs as [Hact Hnew]. destruct (Hact p Hpo) as [Hlt Hz].
    assert (destroyed s' (program_name p) = 1%nat) as H1.
    { unfold destroyed in *. rewrite Hd, Hpo.
      rewrite count_occ_cons_eq by done. by rewrite Hz. }
    assert (forall q, programRef s' = Some q -> program_name q <> program_name p) as Hq.
    { rewrite Hp. intros q [= <-]. simpl. lia. }
    split; [|split; [done|split; [done|]]].
    - intros Heq. by apply (Hq p).
    - rewrite destroyed_stable_all; [done|done|lia|done]. }
  split; [|split; [|split]].
  - rewrite Hp. by eexists.
  - unfold error. by rewrite Hr.
  - exact Hold.
  - intros a1 a2 Hpre Hok1 Hko2.
    destruct (recompile_success a1 _ Hok1) as (Hp1 & _).
    assert (programRef s = programRef (recompile a1 (mount gl))) as Hsp.
    { unfold s. rewrite Hpre, recompile_all_cons. simpl.
      apply recompile_failure.
      by rewrite (succeeds_glRef _ (mount gl)) by apply recompile_glRef. }
    rewrite Hp1 in Hsp.
    destruct (Hold _ Hsp) as (Hne & _ & Hone & _).
    assert (recompile_all [a1; a2; a] (mount gl) = s') as ->.
    { unfold s', s. by rewrite Hpre. }
    rewrite Hp1, Hp. do 2 eexists. repeat split; try done.
    intros Heq. apply Hne. by rewrite Hp, Heq.
Qed.

Lemma success_replaces_and_destroys_once_witness :
  succeeds (recompile_all [Drivers.solid; Drivers.broken] (mount true))
           Drivers.gradient = true
  /\ exists p1 p3,
       programRef (recompile Drivers.solid (mount true)) = Some p1
       /\ programRef (recompile_all [Drivers.solid; Drivers.broken; Drivers.gradient]
                                    (mount true)) = Some p3
       /\ fragment_of p3 = source Drivers.gradient
       /\ p3 <> p1
       /\ destroyed (recompile_all [Drivers.solid; Drivers.broken; Drivers.gradient]
                                   (mount true))
                    (program_name p1) = 1%nat.
Proof.
  split; [reflexivity|].
  destruct (success_replaces_and_destroys_once
              true [Drivers.solid; Drivers.broken] [Drivers.solid] Drivers.gradient
              eq_refl) as (_ & _ & _ & H).
  exact (H Drivers.solid Drivers.broken eq_refl eq_refl eq_refl).
Defined.

(** *** Failures of the vertex stage and of the link *)

(** C3, as amended.  When both stages compile and the link fails, the log
    of the link goes to the console; [onCompileError] is not called, so the
    diagnostic the error consumer holds stays what it was; the active
    program stays in place and is not deleted. *)
Theorem link_failure_goes_to_console s a :
  glRef s = true ->
  stage_ok (driver a) VERTEX_SHADER = true ->
  stage_ok (driver a) FRAGMENT_SHADER = true ->
  createProgram_ok (driver a) = true ->
  LINK_STATUS (driver a) = false ->
  reported (recompile a s) = reported s
  /\ error (recompile a s) = error s
  /\ console (recompile a s) = getProgramInfoLog (driver a) :: console s
  /\ programRef (recompile a s) = programRef s
  /\ deletedPrograms (recompile a s) = deletedPrograms s.
Proof.
  destruct a as [src [cs st lg cp lk pl]], s as [[] [old|] ? ? ? ? ? ? ?];
    run_effect; try done.
  all: answers cs st lg cp lk; done.
Qed.

Lemma link_failure_goes_to_console_witness :
  reported (recompile Drivers.unlinkable (recompile Drivers.broken (mount true)))
  = reported (recompile Drivers.broken (mount true))
  /\ error (recompile Drivers.unlinkable (recompile Drivers.broken (mount true)))
     = error (recompile Drivers.broken (mount true))
  /\ console (recompile Drivers.unlinkable (recompile Drivers.broken (mount true)))
     = getProgramInfoLog (driver Drivers.unlinkable)
       :: console (recompile Drivers.broken (mount true))
  /\ programRef (recompile Drivers.unlinkable (recompile Drivers.broken (mount true)))
     = programRef (recompile Drivers.broken (mount true))
  /\ deletedPrograms (recompile Drivers.unlinkable (recompile Drivers.broken (mount true)))
     = deletedPrograms (recompile Drivers.broken (mount true)).
Proof.
  apply (link_failure_goes_to_console
           (recompile Drivers.broken (mount true)) Drivers.unlinkable);
    reflexivity.
Defined.

(** C3, as stated, fails: both stages compile, the link fails, and no
    diagnostic reaches the error consumer; the log is on the console. *)
Lemma link_failure_reports_no_diagnostic :
  stage_ok (driver Drivers.unlinkable) VERTEX_SHADER = true
  /\ stage_ok (driver Drivers.unlinkable) FRAGMENT_SHADER = true
  /\ links (driver Drivers.unlinkable) = false
  /\ reported (recompile Drivers.unlinkable (mount true)) = []
  /\ error (recompile Drivers.unlinkable (mount true)) = None
  /\ console (recompile Drivers.unlinkable (mount true))
     = [Some (lit "Varyings do not match")].
Proof. repeat split; reflexivity. Qed.

(** C4, as amended.  When the vertex stage fails, no link is attempted, the
    active program stays in place and nothing goes to the console; the
    failure itself is reported to nobody.  The fragment stage is compiled
    all the same: with a context, the attempt is the compilation of the
    vertex stage followed by that of the fragment stage and nothing more, a
    shader object is created for the fragment stage whenever the driver
    gives one, and what the attempt reports is exactly what the fragment
    stage reports: the diagnostic extracted from its log when it fails with
    a log that is not empty, and nothing otherwise. *)
Theorem vertex_failure_is_not_reported s a :
  stage_ok (driver a) VERTEX_SHADER = false ->
  linked (recompile a s) = linked s
  /\ programRef (recompile a s) = programRef s
  /\ deletedPrograms (recompile a s) = deletedPrograms s
  /\ positionBuffers (recompile a s) = positionBuffers s
  /\ console (recompile a s) = console s
  /\ (stage_ok (driver a) FRAGMENT_SHADER = true ->
      reported (recompile a s) = reported s)
  /\ (glRef s = true ->
      recompile a s
      = exec (compileShader (driver a) (source a) FRAGMENT_SHADER)
          (exec (compileShader (driver a) DEFAULT_VERTEX_SHADER VERTEX_SHADER) s)
      /\ reported (recompile a s) = fragment_report (driver a) ++ reported s
      /\ next_name (recompile a s)
         = next_name s + created (driver a) VERTEX_SHADER
           + created (driver a) FRAGMENT_SHADER).
Proof.
  unfold fragment_report, created.
  destruct a as [src [cs st lg cp lk pl]], s as [[] [old|] n ? ? ? ? ? ?];
    run_effect; try (intros; repeat split; auto; done).
  all: answers cs st lg cp lk; intros; repeat split; auto; try done; lia.
Qed.

Lemma vertex_failure_is_not_reported_witness :
  linked (recompile Drivers.bad_both (recompile Drivers.solid (mount true)))
  = linked (recompile Drivers.solid (mount true))
  /\ programRef (recompile Drivers.bad_both (recompile Drivers.solid (mount true)))
     = programRef (recompile Drivers.solid (mount true))
  /\ reported (recompile Drivers.bad_both (recompile Drivers.solid (mount true)))
     = fragment_report (driver Drivers.bad_both)
       ++ reported (recompile Drivers.solid (mount true))
  /\ next_name (recompile Drivers.bad_both (recompile Drivers.solid (mount true)))
     = next_name (recompile Drivers.solid (mount true))
       + created (driver Drivers.bad_both) VERTEX_SHADER
       + created (driver Drivers.bad_both) FRAGMENT_SHADER.
Proof.
  destruct (vertex_failure_is_not_reported
              (recompile Drivers.solid (mount true)) Drivers.bad_both eq_refl)
    as (H1 & H2 & _ & _ & _ & _ & H7).
  destruct (H7 eq_refl) as (_ & H8 & H9).
  split; [exact H1|]. split; [exact H2|]. split; [exact H8 | exact H9].
Defined.

(** C4, as stated, fails: the vertex stage fails and nothing is reported;
    and when the fragment stage fails as well, what is reported is the
    diagnostic of the fragment stage, with its line. *)
Lemma vertex_failure_not_propagated :
  stage_ok (driver Drivers.bad_vertex) VERTEX_SHADER = false
  /\ reported (recompile Drivers.bad_vertex (mount true)) = []
  /\ stage_ok (driver Drivers.bad_both) VERTEX_SHADER = false
  /\ reported (recompile Drivers.bad_both (mount true))
     = [Some {| line := 7;
                message := lit "ERROR: 0:7: 'foo' : undeclared identifier" |}].
Proof. repeat split; reflexivity. Qed.

End LifecycleFacts.

(** ** The render loop *)

Section LoopFacts.

Import Lifecycle Viewport Loop.

#[local] Open Scope Z_scope.

Implicit Types (c : Component) (es : list Event).

Lemma step_startTimeRef e c :
  startTimeRef (loop (step e c)) = startTimeRef (loop c).
Proof.
  destruct e as [now|b|a|l|l x y]; simpl; try done.
  - unfold refresh.
    assert (forall cbs c0, startTimeRef
              (loop (fold_left (fun c1 (cb : N * bool) => animate (snd cb) now c1)
                               cbs c0))
              = startTimeRef (loop c0)) as H.
    { induction cbs as [|cb cbs IH]; intros c0; simpl; [done|].
      rewrite IH. unfold animate. simpl.
      destruct (glRef (life c0)), (programRef (life c0)), (snd cb); done. }
    by rewrite H.
  - destruct c as [l v [t r pl cbs n fr]].
    unfold setIsPlaying, playEffect, playCleanup, cancel. simpl.
    by destruct b, pl, r.
Qed.

(** No event moves the reference instant. *)
Lemma run_startTimeRef es c :
  startTimeRef (loop (run es c)) = startTimeRef (loop c).
Proof.
  revert c. induction es as [|e es IH]; intros c; [done|].
  unfold run in *. simpl. by rewrite IH, step_startTimeRef.
Qed.

Lemma run_app es1 es2 c : run (es1 ++ es2) c = run es2 (run es1 c).
Proof. unfold run. apply fold_left_app. Qed.

(** A refresh of a playing component with its one callback pending draws
    one frame and registers the next callback. *)
Lemma refresh_playing c p t0 h n fr now :
  glRef (life c) = true -> programRef (life c) = Some p ->
  loop c = mkScheduler t0 (Some h) true [(h, true)] n fr ->
  refresh now c
  = mkComponent (life c) (view c)
      (mkScheduler t0 (Some n) true [(n, true)] (N.succ n)
         (mkFrame p (width (view c), height (view c)) (since t0 now)
                  (mouseRef (view c)) :: fr)).
Proof.
  destruct c as [l v lp]. simpl. intros Hg Hp ->.
  unfold refresh, animate. simpl. by rewrite Hg, Hp.
Qed.

Lemma run_refresh_playing ts c p t0 h n fr :
  glRef (life c) = true -> programRef (life c) = Some p ->
  loop c = mkScheduler t0 (Some h) true [(h, true)] n fr ->
  exists h' n' fr',
    run (map Refresh ts) c
    = mkComponent (life c) (view c) (mkScheduler t0 (Some h') true [(h', true)] n' fr')
    /\ map u_time fr' = rev (map (since t0) ts) ++ map u_time fr.
Proof.
  revert c h n fr. induction ts as [|t ts IH]; intros c h n fr Hg Hp Hl.
  - exists h, n, fr. split; [|done]. destruct c. simpl in *. by rewrite Hl.
  - simpl. unfold run. simpl. fold (run (map Refresh ts) (refresh t c)).
    rewrite (refresh_playing c p t0 h n fr t Hg Hp Hl).
    edestruct (IH (mkComponent (life c) (view c)
                     (mkScheduler t0 (Some n) true [(n, true)] (N.succ n)
                        (mkFrame p (width (view c), height (view c)) (since t0 t)
                                 (mouseRef (view c)) :: fr))))
      as (h' & n' & fr' & -> & Hfr); [done|done|reflexivity|].
    exists h', n', fr'. split; [done|].
    rewrite Hfr. simpl. by rewrite <- app_assoc.
Qed.

(** While paused, with no callback pending, a refresh does nothing. *)
Lemma run_refresh_paused ts l v t0 r n fr :
  run (map Refresh ts) (mkComponent l v (mkScheduler t0 r false [] n fr))
  = mkComponent l v (mkScheduler t0 r false [] n fr).
Proof. induction ts as [|t ts IH]; [done|]. simpl. apply IH. Qed.

Lemma pause_playing l v t0 h n fr :
  setIsPlaying false (mkComponent l v (mkScheduler t0 (Some h) true [(h, true)] n fr))
  = mkComponent l v (mkScheduler t0 (Some h) false [] n fr).
Proof.
  unfold setIsPlaying, playEffect, playCleanup, cancel, with_loop. simpl.
  by rewrite N.eqb_refl.
Qed.

Lemma resume_paused l v t0 r n fr :
  setIsPlaying true (mkComponent l v (mkScheduler t0 r false [] n fr))
  = mkComponent l v (mkScheduler t0 (Some n) true [(n, true)] (N.succ n) fr).
Proof.
  unfold setIsPlaying, playEffect, playCleanup, cancel, with_loop. simpl.
  by destruct r.
Qed.

(** C6, as amended.  The elapsed time of a frame is the wall-clock time
    since the component was mounted, and no event moves that reference
    instant.  For a component mounted playing at [t0] that draws at the
    times [running], is paused, draws nothing at the refreshes [paused], and
    is resumed, the frame drawn at the next refresh [T] has the elapsed time
    [(T - t0) / 1000]: it is not reset to 0 and it counts the time spent
    paused, so it is at least 15 s when 15 s of wall-clock time have
    passed. *)
Theorem elapsed_time_counts_the_pause
    (c : Component) (p : Program) (t0 : Z) (running paused : list Z) (T : Z) :
  glRef (life c) = true -> programRef (life c) = Some p ->
  loop c = Loop.mount t0 true ->
  (forall es, startTimeRef (loop (run es c)) = t0)
  /\ map u_time
       (frames (loop (run (map Refresh running ++ [SetIsPlaying false]
                           ++ map Refresh paused
                           ++ [SetIsPlaying true; Refresh T]) c)))
     = since t0 T :: rev (map (since t0) running)
  /\ (t0 + 15000 <= T -> (15 <= since t0 T)%Q).
Proof.
  intros Hg Hp Hl. split; [|split].
  - intros es. by rewrite run_startTimeRef, Hl.
  - destruct (run_refresh_playing running c p t0 1%N 2%N [] Hg Hp Hl)
      as (h & n & fr & Hrun & Hfr).
    rewrite !run_app, Hrun.
    change (run [SetIsPlaying false] ?x) with (setIsPlaying false x).
    rewrite pause_playing, run_refresh_paused.
    change (run [SetIsPlaying true; Refresh T] ?x)
      with (refresh T (setIsPlaying true x)).
    rewrite resume_paused.
    erewrite refresh_playing; [|done|done|reflexivity].
    simpl. rewrite Hfr. by rewrite app_nil_r.
  - intros H. unfold since, Qle. simpl. lia.
Qed.

Lemma elapsed_time_counts_the_pause_witness :
  map u_time
    (frames (loop (run (map Refresh [1000; 2000; 3000; 4000; 5000]
                        ++ [SetIsPlaying false] ++ map Refresh [9000]
                        ++ [SetIsPlaying true; Refresh 15016]) Drivers.stage)))
  = since 0 15016 :: rev (map (since 0) [1000; 2000; 3000; 4000; 5000])
  /\ (15 <= since 0 15016)%Q.
Proof.
  destruct (elapsed_time_counts_the_pause
              Drivers.stage
              (mkProgram 3
                 (mkShader 1 VERTEX_SHADER DEFAULT_VERTEX_SHADER)
                 (mkShader 2 FRAGMENT_SHADER (source Drivers.solid)))
              0 [1000; 2000; 3000; 4000; 5000] [9000] 15016
              eq_refl eq_refl eq_refl) as (_ & H1 & H2).
  split; [exact H1|]. apply H2. lia.
Defined.

(** C6, as stated, fails: mounted at 0, drawing every second up to 5 s,
    paused there and resumed after 10 s, the component draws its next frame
    with an elapsed time of 15.016 s: the time has jumped over the pause. *)
Lemma elapsed_time_jumps_over_the_pause :
  map u_time
    (frames (loop (run [Refresh 1000; Refresh 2000; Refresh 3000; Refresh 4000;
                        Refresh 5000; SetIsPlaying false; SetIsPlaying true;
                        Refresh 15016] Drivers.stage)))
  = [15016 # 1000; 5000 # 1000; 4000 # 1000; 3000 # 1000; 2000 # 1000;
     1000 # 1000]
  /\ (15 <= 15016 # 1000)%Q.
Proof. split; [reflexivity|]. unfold Qle. simpl. lia. Qed.

End LoopFacts.

(** ** The pointer *)

Section ViewportFacts.

Import Viewport.

Lemma resizes_keep_mouseRef ls v :
  mouseRef (fold_left (fun v l => handleResize l v) ls v) = mouseRef v.
Proof.
  revert v. induction ls as [|l ls IH]; intros v; simpl; [done|].
  by rewrite IH.
Qed.

(** C9.  Before any pointer motion the position is (0, 0), whatever
    resizes happen.  On a page with a device pixel ratio of 2 and a canvas of
    400 by 300 CSS pixels, hence 800 by 600 device pixels, a pointer on the
    bottom left corner of the canvas is stored as (0, 300) and a pointer on
    its top right corner as (400, 600): the offsets are CSS pixels, and the
    height they are subtracted from is in device pixels. *)
Theorem pointer_offsets_are_css_pixels :
  (forall l ls,
      mouseRef (fold_left (fun v l' => handleResize l' v) ls (mount l))
      = (0%Q, 0%Q))
  /\ width (mount Drivers.retina) = 800%Z
  /\ height (mount Drivers.retina) = 600%Z
  /\ mouseRef (handleMouseMove Drivers.retina 0 300 (mount Drivers.retina))
     = (0 # 1, 300 # 1)
  /\ mouseRef (handleMouseMove Drivers.retina 400 0 (mount Drivers.retina))
     = (400 # 1, 600 # 1).
Proof.
  split; [|repeat split; reflexivity].
  intros l ls. by rewrite resizes_keep_mouseRef.
Qed.

End ViewportFacts.

(** ** The debounce *)

Section DebounceFacts.

Import Debounce.

#[local] Open Scope Z_scope.

Implicit Types (a : App) (es : list (Z * str)) (c r : str) (t : Z).

Lemma elapse_code now a : code (elapse now a) = code a.
Proof.
  unfold elapse. destruct (timer a) as [[due c]|]; [|done].
  by destruct (due <=? now).
Qed.

(** An edit that changes the text arms a timer for the new text; the one
    that was pending is gone. *)
Lemma setCode_changes now c a :
  c <> code a ->
  setCode now c a
  = {| code := c; runnableCode := runnableCode (elapse now a);
       timer := Some (now + window, c);
       settled := settled (elapse now a);
       compiled := compiled (elapse now a) |}.
Proof.
  intros H. unfold setCode. rewrite elapse_code.
  by destruct (decide (c = code a)).
Qed.

(** A pending timer that is not due yet does not go off. *)
Lemma elapse_early now c r due c' S C :
  now < due ->
  elapse now (mkApp c r (Some (due, c')) S C) = mkApp c r (Some (due, c')) S C.
Proof.
  intros H. unfold elapse. simpl.
  destruct (Z.leb_spec due now); [lia|done].
Qed.

(** A pending timer that is due goes off. *)
Lemma elapse_due now c r due c' S C :
  due <= now ->
  elapse now (mkApp c r (Some (due, c')) S C)
  = mkApp c c' None ((due, c') :: S)
          (if decide (c' = r) then C else c' :: C).
Proof.
  intros H. unfold elapse. simpl.
  destruct (Z.leb_spec due now); [done|lia].
Qed.

Lemma last_cons_default {A} (l : list A) (x d d' : A) :
  List.last (x :: l) d = List.last (x :: l) d'.
Proof.
  revert x. induction l as [|y l IH]; intros x; [done|].
  change (List.last (y :: l) d = List.last (y :: l) d'). apply IH.
Qed.

(** During a burst nothing settles: the timer is re-armed from the last
    edit. *)
Lemma edits_burst es t c r S C :
  Burst t c es ->
  edits es (mkApp c r (Some (t + window, c)) S C)
  = mkApp (snd (List.last es (t, c))) r
          (Some (fst (List.last es (t, c)) + window, snd (List.last es (t, c)))) S C.
Proof.
  revert t c. induction es as [|[t' c'] es IH]; intros t c; simpl; [done|].
  intros ([Hlo Hhi] & Hne & Hb).
  unfold edits in *. simpl.
  rewrite setCode_changes by done.
  rewrite elapse_early by done. simpl.
  rewrite IH by done.
  destruct es as [|e es]; [done|].
  by rewrite (last_cons_default es e (t', c') (t, c)).
Qed.

(** After an edit at [t] that left [c], further edits and then silence:
    what settles is what the quiet periods say. *)
Lemma edits_settle es t c r S C T :
  Edits t c es ->
  fst (List.last es (t, c)) + window <= T ->
  settled (elapse T (edits es (mkApp c r (Some (t + window, c)) S C)))
  = rev (quiet_periods ((t, c) :: es)) ++ S
  /\ timer (elapse T (edits es (mkApp c r (Some (t + window, c)) S C))) = None
  /\ runnableCode (elapse T (edits es (mkApp c r (Some (t + window, c)) S C)))
     = snd (List.last es (t, c))
  /\ (forall x,
        In x (compiled (elapse T (edits es (mkApp c r (Some (t + window, c)) S C)))) ->
        In x C \/ In x (map snd (quiet_periods ((t, c) :: es)))).
Proof.
  revert t c r S C. induction es as [|[t' c'] es IH]; intros t c r S C.
  - simpl. intros _ HT. rewrite elapse_due by done. simpl.
    split; [done|split; [done|split; [done|]]]. intros x.
    destruct (decide (c = r)); simpl; [tauto|]. intros [<-|H]; tauto.
  - intros (Hlt & Hne & He) HT.
    change (edits ((t', c') :: es) ?x) with (edits es (setCode t' c' x)).
    rewrite setCode_changes by done.
    assert (fst (List.last es (t', c')) + window <= T) as HT'.
    { destruct es as [|e es]; [done|].
      by rewrite (last_cons_default es e (t', c') (t, c)). }
    assert (List.last ((t', c') :: es) (t, c) = List.last es (t', c')) as Hlast.
    { destruct es as [|e es]; [done|].
      by rewrite (last_cons_default es e (t', c') (t, c)). }
    rewrite Hlast.
    change (quiet_periods ((t, c) :: (t', c') :: es))
      with (if t + window <=? t'
            then (t + window, c) :: quiet_periods ((t', c') :: es)
            else quiet_periods ((t', c') :: es)).
    destruct (Z.leb_spec (t + window) t') as [Hdue|Hearly].
    + rewrite elapse_due by done. cbn [runnableCode settled compiled].
      destruct (IH t' c' c ((t + window, c) :: S)
                  (if decide (c = r) then C else c :: C) He HT')
        as (-> & -> & -> & Hc).
      split; [|split; [done|split; [done|]]].
      { simpl. by rewrite <- app_assoc. }
      intros x Hx. destruct (Hc x Hx) as [Hin|Hin].
      * destruct (decide (c = r)); simpl in *; tauto.
      * right. cbn [map In]. tauto.
    + rewrite elapse_early by done. cbn [runnableCode settled compiled].
      destruct (IH t' c' r S C He HT') as (-> & -> & -> & Hc).
      split; [done|split; [done|split; [done|]]]. exact Hc.
Qed.

Lemma Burst_Edits es t c : Burst t c es -> Edits t c es.
Proof.
  revert t c. induction es as [|e es IH]; intros t c; simpl; [done|].
  intros ([? ?] & ? & ?). auto.
Qed.

(** A burst has one quiet period, after its last edit. *)
Lemma quiet_periods_burst es t c :
  Burst t c es ->
  quiet_periods ((t, c) :: es)
  = [(fst (List.last es (t, c)) + window, snd (List.last es (t, c)))].
Proof.
  revert t c. induction es as [|[t' c'] es IH]; intros t c; [done|].
  intros ([Hlo Hhi] & Hne & Hb).
  change (quiet_periods ((t, c) :: (t', c') :: es))
    with (if t + window <=? t'
          then (t + window, c) :: quiet_periods ((t', c') :: es)
          else quiet_periods ((t', c') :: es)).
  simpl in Hhi, Hb. destruct (Z.leb_spec (t + window) t'); [lia|].
  rewrite (IH t' c' Hb). destruct es as [|e es]; [done|].
  by rewrite (last_cons_default es e (t', c') (t, c)).
Qed.

(** C7.  For edits that come one after the other, each changing the text,
    followed by silence: [setRunnableCode] is called once for each quiet
    period, 800 ms after the edit that opens it and with the text of that
    edit, and for nothing else; in the end the settled text is the one typed
    last and no timer is pending; the canvas compiles no text of these edits
    that did not settle.  When each edit comes within 800 ms of the one
    before, nothing settles during the edits and there is exactly one call,
    800 ms after the last edit, with its text. *)
Theorem debounce_settles_once_per_quiet_period
    (a : App) (t1 : Z) (c1 : str) (rest : list (Z * str)) (T : Z) :
  c1 <> code a ->
  Edits t1 c1 rest ->
  fst (List.last rest (t1, c1)) + 800 <= T ->
  settled (elapse T (edits ((t1, c1) :: rest) a))
  = rev (quiet_periods ((t1, c1) :: rest)) ++ settled (elapse t1 a)
  /\ timer (elapse T (edits ((t1, c1) :: rest) a)) = None
  /\ runnableCode (elapse T (edits ((t1, c1) :: rest) a))
     = snd (List.last rest (t1, c1))
  /\ (forall x,
        In x (compiled (elapse T (edits ((t1, c1) :: rest) a))) ->
        In x (compiled (elapse t1 a))
        \/ In x (map snd (quiet_periods ((t1, c1) :: rest))))
  /\ (Burst t1 c1 rest ->
      settled (edits ((t1, c1) :: rest) a) = settled (elapse t1 a)
      /\ settled (elapse T (edits ((t1, c1) :: rest) a))
         = (fst (List.last rest (t1, c1)) + 800, snd (List.last rest (t1, c1)))
           :: settled (elapse t1 a)).
Proof.
  intros Hne He HT.
  change (edits ((t1, c1) :: rest) a) with (edits rest (setCode t1 c1 a)).
  rewrite setCode_changes by done.
  destruct (edits_settle rest t1 c1 (runnableCode (elapse t1 a))
              (settled (elapse t1 a)) (compiled (elapse t1 a)) T He HT)
    as (Hs & Ht & Hr & Hc).
  repeat split; try done.
  - by rewrite edits_burst.
  - rewrite Hs, quiet_periods_burst by done. done.
Qed.

Lemma debounce_settles_once_per_quiet_period_witness :
  settled (elapse 5000
             (edits [(0, lit "v"); (100, lit "vo"); (200, lit "voi"); (750, lit "void")]
                    (mount (-2000) (lit "precision mediump float;"))))
  = [(1550, lit "void"); (-1200, lit "precision mediump float;")]
  /\ settled (edits [(0, lit "v"); (100, lit "vo"); (200, lit "voi"); (750, lit "void")]
                    (mount (-2000) (lit "precision mediump float;")))
     = [(-1200, lit "precision mediump float;")]
  /\ runnableCode
       (elapse 5000
          (edits [(0, lit "v"); (100, lit "vo"); (200, lit "voi"); (750, lit "void")]
                 (mount (-2000) (lit "precision mediump float;"))))
     = lit "void".
Proof.
  destruct (debounce_settles_once_per_quiet_period
              (mount (-2000) (lit "precision mediump float;"))
              0 (lit "v") [(100, lit "vo"); (200, lit "voi"); (750, lit "void")]
              5000) as (_ & _ & Hr & _ & Hb).
  - discriminate.
  - simpl. repeat split; try lia; discriminate.
  - simpl. lia.
  - destruct Hb as [H0 H1].
    + simpl. unfold window. repeat split; try lia; discriminate.
    + split; [exact H1 | split; [exact H0 | exact Hr]].
Defined.

End DebounceFacts.

(** * Further properties of the sources *)

Import Further.

(** ** The program lifecycle, continued *)

Section LifecycleMore.

Import Lifecycle.

Implicit Types (s : Session) (a : Attempt) (l : list Attempt).

Ltac unfold_effect :=
  unfold recompile, exec, compileEffect, compileShader, createShader,
    createProgram, bind, ret, fresh, get_glRef, get_programRef,
    set_programRef, deleteShader, deleteProgram, linkProgram, onCompileError,
    console_error, setupGeometry, succeeds, stage_ok, links in *;
  simpl in *.

Ltac driver_cases cs st lg cp lk :=
  destruct (cs VERTEX_SHADER) eqn:?, (st VERTEX_SHADER) eqn:?,
    (cs FRAGMENT_SHADER) eqn:?, (st FRAGMENT_SHADER) eqn:?,
    (lg FRAGMENT_SHADER) as [[|? ?]|] eqn:?, cp, lk;
  simpl in *.

(** X1.  A fragment stage that fails with a log is reported: the consumer
    gets the diagnostic extracted from the log, whose message is the whole
    log, whatever the vertex stage did; the active program stays and no link
    is attempted. *)
Theorem fragment_failure_is_reported s a (c : N) (i : str) :
  glRef s = true ->
  createShader_ok (driver a) FRAGMENT_SHADER = true ->
  COMPILE_STATUS (driver a) FRAGMENT_SHADER = false ->
  getShaderInfoLog (driver a) FRAGMENT_SHADER = Some (c :: i) ->
  reported (recompile a s) = Some (extract (c :: i)) :: reported s
  /\ error (recompile a s) = Some (extract (c :: i))
  /\ message (extract (c :: i)) = c :: i
  /\ programRef (recompile a s) = programRef s
  /\ linked (recompile a s) = linked s.
Proof.
  intros Hg Hc Hs Hl.
  assert (message (extract (c :: i)) = c :: i) as Hm.
  { unfold extract. by destruct (regex_match (c :: i)). }
  cut (reported (recompile a s) = Some (extract (c :: i)) :: reported s
       /\ programRef (recompile a s) = programRef s
       /\ linked (recompile a s) = linked s).
  { intros (H1 & H2 & H3). unfold error. rewrite H1. by repeat split. }
  clear Hm.
  destruct a as [src [cs st lg cp lk pl]], s as [[] [old|] ? ? ? ? ? ? ?];
    unfold_effect; try done.
  all: rewrite Hc, Hs, Hl.
  all: destruct (cs VERTEX_SHADER), (st VERTEX_SHADER); simpl; done.
Qed.

Lemma fragment_failure_is_reported_witness :
  reported (recompile Drivers.broken (recompile Drivers.solid (mount true)))
  = [Some {| line := 1; message := lit "ERROR: 0:1: '' : syntax error" |}; None]
  /\ programRef (recompile Drivers.broken (recompile Drivers.solid (mount true)))
     = programRef (recompile Drivers.solid (mount true)).
Proof.
  destruct (fragment_failure_is_reported
              (recompile Drivers.solid (mount true)) Drivers.broken
              69 (lit "RROR: 0:1: '' : syntax error")
              eq_refl eq_refl eq_refl eq_refl) as (H1 & _ & _ & H2 & _).
  split; [exact H1 | exact H2].
Defined.

(** X2.  A fragment stage that fails without a log (the log is [null] or
    empty, or the shader object could not be created) is reported to nobody:
    the consumer keeps the diagnostic it had, and the program stays. *)
Theorem fragment_failure_without_log_is_silent s a :
  stage_ok (driver a) FRAGMENT_SHADER = false ->
  createShader_ok (driver a) FRAGMENT_SHADER = false
  \/ getShaderInfoLog (driver a) FRAGMENT_SHADER = None
  \/ getShaderInfoLog (driver a) FRAGMENT_SHADER = Some [] ->
  reported (recompile a s) = reported s
  /\ error (recompile a s) = error s
  /\ programRef (recompile a s) = programRef s.
Proof.
  destruct a as [src [cs st lg cp lk pl]], s as [[] [old|] ? ? ? ? ? ? ?];
    unfold error; unfold_effect; try done.
  all: driver_cases cs st lg cp lk; intros ? [?|[?|?]]; done.
Qed.

Lemma fragment_failure_without_log_is_silent_witness :
  error (recompile (mkAttempt (lit "void main() {") (Drivers.rejecting_fragment []))
                   (recompile Drivers.solid (mount true)))
  = None.
Proof.
  destruct (fragment_failure_without_log_is_silent
              (recompile Drivers.solid (mount true))
              (mkAttempt (lit "void main() {") (Drivers.rejecting_fragment []))
              eq_refl (or_intror (or_intror eq_refl))) as (_ & H & _).
  exact H.
Defined.

Lemma failure_reports_a_diagnostic_or_nothing s a :
  succeeds s a = false ->
  reported (recompile a s) = reported s
  \/ exists e, reported (recompile a s) = Some e :: reported s.
Proof.
  destruct a as [src [cs st lg cp lk pl]], s as [[] [old|] ? ? ? ? ? ? ?];
    unfold_effect; auto.
  all: driver_cases cs st lg cp lk; intros; try done; eauto.
Qed.

(** X3.  An attempt calls [onCompileError] at most once, and it calls it
    with [null] exactly when the attempt goes through. *)
Theorem one_report_per_attempt s a :
  exists calls,
    reported (recompile a s) = calls ++ reported s
    /\ (length calls <= 1)%nat
    /\ (calls = [None] <-> succeeds s a = true).
Proof.
  destruct (succeeds s a) eqn:E.
  - destruct (recompile_success a s E) as (_ & _ & Hr & _).
    exists [None]. rewrite Hr. by repeat split.
  - destruct (failure_reports_a_diagnostic_or_nothing s a E) as [Hr|[e Hr]].
    + exists []. rewrite Hr. repeat split; simpl; try lia; done.
    + exists [Some e]. rewrite Hr. repeat split; simpl; try lia; done.
Qed.

(** *** What is deleted, and what is not *)

Lemma deleted_NoDup_recompile a s :
  NamesFresh s -> NoDup (deletedPrograms s) ->
  NoDup (deletedPrograms (recompile a s)).
Proof.
  intros [Hact _] Hnd. destruct (succeeds s a) eqn:E.
  - destruct (recompile_success a s E) as (_ & -> & _).
    destruct (programRef s) as [old|] eqn:Eo; [|done].
    destruct (Hact old eq_refl) as [_ Hz].
    apply NoDup_cons_2; [|done].
    rewrite list_elem_of_In. by apply (count_occ_not_In N.eq_dec).
  - by destruct (recompile_failure a s E) as (_ & ->).
Qed.

Lemma deleted_NoDup_recompile_all l s :
  NamesFresh s -> NoDup (deletedPrograms s) ->
  NoDup (deletedPrograms (recompile_all l s)).
Proof.
  revert s. induction l as [|a l IH]; intros s Hf Hnd; [done|].
  rewrite recompile_all_cons. apply IH.
  - by apply NamesFresh_recompile.
  - by apply deleted_NoDup_recompile.
Qed.

(** X4.  Whatever attempts a component sees, it deletes no program twice,
    and the program it draws with is never one it has deleted. *)
Theorem programs_are_deleted_at_most_once (gl : bool) l :
  NoDup (deletedPrograms (recompile_all l (mount gl)))
  /\ (forall p, programRef (recompile_all l (mount gl)) = Some p ->
                ~ In (program_name p) (deletedPrograms (recompile_all l (mount gl)))).
Proof.
  split.
  - apply deleted_NoDup_recompile_all; [apply NamesFresh_mount|constructor].
  - intros p Hp.
    destruct (NamesFresh_recompile_all l (mount gl) (NamesFresh_mount gl))
      as [Hact _].
    destruct (Hact p Hp) as [_ Hz].
    by apply (count_occ_not_In N.eq_dec).
Qed.

Lemma link_failure_consumes_three_names a s :
  glRef s = true ->
  stage_ok (driver a) VERTEX_SHADER = true ->
  stage_ok (driver a) FRAGMENT_SHADER = true ->
  createProgram_ok (driver a) = true ->
  LINK_STATUS (driver a) = false ->
  linked (recompile a s) = N.succ (N.succ (next_name s)) :: linked s
  /\ next_name (recompile a s) = N.succ (N.succ (N.succ (next_name s)))
  /\ deletedShaders (recompile a s) = deletedShaders s.
Proof.
  destruct a as [src [cs st lg cp lk pl]], s as [[] [old|] ? ? ? ? ? ? ?];
    unfold_effect; try done.
  all: driver_cases cs st lg cp lk; done.
Qed.

Lemma inactive_stable_all l s n :
  NamesFresh s -> n < next_name s ->
  (forall p, programRef s = Some p -> program_name p <> n) ->
  forall p, programRef (recompile_all l s) = Some p -> program_name p <> n.
Proof.
  revert s. induction l as [|a l IH]; intros s Hf Hn Hne; [done|].
  rewrite recompile_all_cons.
  destruct (destroyed_stable a s n Hf Hn Hne) as (_ & Hn' & Hne').
  apply IH; [by apply NamesFresh_recompile|done|done].
Qed.

(** X5.  The program object of an attempt whose link fails is created and
    linked but, whatever attempts follow, it never becomes the active
    program and is never deleted: only a program that was active is ever
    passed to [gl.deleteProgram]. *)
Theorem unlinked_program_is_never_deleted (pre post : list Attempt) a :
  stage_ok (driver a) VERTEX_SHADER = true ->
  stage_ok (driver a) FRAGMENT_SHADER = true ->
  createProgram_ok (driver a) = true ->
  LINK_STATUS (driver a) = false ->
  linked (recompile a (recompile_all pre (mount true)))
  = N.succ (N.succ (next_name (recompile_all pre (mount true))))
    :: linked (recompile_all pre (mount true))
  /\ destroyed (recompile_all post (recompile a (recompile_all pre (mount true))))
               (N.succ (N.succ (next_name (recompile_all pre (mount true))))) = O
  /\ (forall p,
        programRef (recompile_all post (recompile a (recompile_all pre (mount true))))
        = Some p ->
        program_name p
        <> N.succ (N.succ (next_name (recompile_all pre (mount true))))).
Proof.
  set (s := recompile_all pre (mount true)). intros Hv Hf Hc Hl.
  assert (glRef s = true) as Hg by apply recompile_all_glRef.
  assert (NamesFresh s) as Hs by apply NamesFresh_recompile_all, NamesFresh_mount.
  destruct (link_failure_consumes_three_names a s Hg Hv Hf Hc Hl) as (Hlk & Hn & _).
  assert (succeeds s a = false) as Hko.
  { apply succeeds_false_iff. right. right. right. unfold links.
    by rewrite Hl, andb_false_r. }
  destruct (recompile_failure a s Hko) as (Hp & Hd).
  assert (NamesFresh (recompile a s)) as Hs' by by apply NamesFresh_recompile.
  assert (forall p, programRef (recompile a s) = Some p ->
                    program_name p <> N.succ (N.succ (next_name s))) as Hne.
  { rewrite Hp. intros p Hpo. destruct Hs as [Hact _].
    destruct (Hact p Hpo). lia. }
  split; [done|split].
  - rewrite destroyed_stable_all; [|done|lia|done].
    unfold destroyed. rewrite Hd. destruct Hs as [_ Hnew]. apply Hnew. lia.
  - apply inactive_stable_all; [done|lia|done].
Qed.

Lemma unlinked_program_is_never_deleted_witness :
  linked (recompile Drivers.unlinkable (recompile_all [Drivers.solid] (mount true)))
  = [7; 3]
  /\ destroyed (recompile_all [Drivers.gradient; Drivers.solid]
                  (recompile Drivers.unlinkable (recompile_all [Drivers.solid] (mount true))))
               7 = O.
Proof.
  destruct (unlinked_program_is_never_deleted
              [Drivers.solid] [Drivers.gradient; Drivers.solid] Drivers.unlinkable
              eq_refl eq_refl eq_refl eq_refl) as (H1 & H2 & _).
  split; [exact H1 | exact H2].
Defined.

(** *** Shaders *)








End LifecycleMore.

(** ** The render loop, continued *)

Section LoopMore.

Import Lifecycle Viewport Loop Teardown.

#[local] Open Scope Z_scope.

Implicit Types (c : Component) (es : list Event) (l : Scheduler).

(** What [animate] leaves of the loop depends on the session only through
    the context and the active program. *)
Lemma animate_loop captured now c :
  loop (animate captured now c)
  = let l1 :=
      match glRef (life c), programRef (life c) with
      | true, Some program =>
          draw (mkFrame program (width (view c), height (view c))
                        (since (startTimeRef (loop c)) now) (mouseRef (view c)))
               (loop c)
      | _, _ => loop c
      end in
    if captured then request captured l1 else l1.
Proof. done. Qed.

Lemma fold_animate_keeps now (cbs : list (N * bool)) c :
  life (fold_left (fun c1 (cb : N * bool) => animate (snd cb) now c1) cbs c) = life c
  /\ view (fold_left (fun c1 (cb : N * bool) => animate (snd cb) now c1) cbs c) = view c.
Proof.
  revert c. induction cbs as [|cb cbs IH]; intros c; [done|].
  simpl. destruct (IH (animate (snd cb) now c)) as [-> ->]. done.
Qed.

Lemma refresh_keeps now c :
  life (refresh now c) = life c /\ view (refresh now c) = view c.
Proof.
  unfold refresh.
  destruct (fold_animate_keeps now (callbacks (loop c))
              (with_loop (clear_callbacks (loop c)) c)) as [-> ->].
  done.
Qed.

Lemma step_Steady e c : Steady (loop c) -> Steady (loop (step e c)).
Proof.
  destruct c as [lf v [t0 r pl cbs n fr]]. unfold Steady. simpl.
  destruct e as [now|b|a|ly|ly x y]; simpl; try done.
  - destruct pl.
    + intros (h & -> & ->). unfold refresh. simpl.
      destruct (glRef lf), (programRef lf); simpl; eauto.
    + intros ->. done.
  - unfold setIsPlaying. simpl. destruct b, pl; simpl; try done.
    + intros ->. unfold playEffect, playCleanup, cancel. simpl.
      destruct r; simpl; eauto.
    + intros (h & -> & ->). unfold playEffect, playCleanup, cancel. simpl.
      by rewrite N.eqb_refl.
Qed.

Lemma mount_Steady t0 playing : Steady (Loop.mount t0 playing).
Proof. destruct playing; unfold Steady; simpl; eauto. Qed.

Lemma run_Steady (t0 : Z) (playing : bool) c es :
  loop c = Loop.mount t0 playing -> Steady (loop (run es c)).
Proof.
  intros Hl.
  assert (Steady (loop c)) as H0 by (rewrite Hl; apply mount_Steady).
  clear Hl. revert c H0. induction es as [|e es IH]; intros c H0; [done|].
  apply (IH (step e c)). by apply step_Steady.
Qed.

(** X7.  The render loop never runs twice: after any events, while playing
    exactly one callback is registered for the next refresh, the one whose
    handle [requestRef] holds, and while paused none is. *)
Theorem one_loop_at_most (t0 : Z) (playing : bool) c es :
  loop c = Loop.mount t0 playing ->
  Steady (loop (run es c))
  /\ (length (callbacks (loop (run es c))) <= 1)%nat
  /\ (isPlaying (loop (run es c)) = false -> callbacks (loop (run es c)) = []).
Proof.
  intros Hl. pose proof (run_Steady t0 playing c es Hl) as H.
  split; [done|]. unfold Steady in H.
  destruct (isPlaying (loop (run es c))).
  - destruct H as (h & -> & _). simpl. split; [lia|done].
  - rewrite H. simpl. split; [lia|done].
Qed.

Lemma one_loop_at_most_witness :
  (length (callbacks (loop (run [SetIsPlaying true; Refresh 16; SetIsPlaying false;
                                 SetIsPlaying true; SetIsPlaying true; Refresh 32]
                                Drivers.stage))) <= 1)%nat.
Proof.
  destruct (one_loop_at_most 0 true Drivers.stage
              [SetIsPlaying true; Refresh 16; SetIsPlaying false;
               SetIsPlaying true; SetIsPlaying true; Refresh 32] eq_refl)
    as (_ & H & _).
  exact H.
Defined.

(** X8.  A refresh draws one frame, with the active program, the size of
    the canvas, the wall-clock time since mount and the pointer, when the
    component is playing and has a context and a program; it draws nothing
    when the component is paused, or has no program yet. *)
Theorem refresh_draws_one_frame_or_none (t0 : Z) (playing : bool) c es (now : Z) :
  loop c = Loop.mount t0 playing ->
  frames (loop (refresh now (run es c)))
  = match isPlaying (loop (run es c)), glRef (life (run es c)),
          programRef (life (run es c)) with
    | true, true, Some program =>
        mkFrame program
                (width (view (run es c)), height (view (run es c)))
                (since t0 now) (mouseRef (view (run es c)))
        :: frames (loop (run es c))
    | _, _, _ => frames (loop (run es c))
    end.
Proof.
  intros Hl.
  pose proof (run_Steady t0 playing c es Hl) as H.
  assert (startTimeRef (loop (run es c)) = t0) as Ht.
  { rewrite run_startTimeRef, Hl. by destruct playing. }
  destruct (run es c) as [lf v [t r pl cbs n fr]]. unfold Steady in H.
  simpl in *. subst t. destruct pl.
  - destruct H as (h & -> & ->). unfold refresh. simpl.
    by destruct (glRef lf), (programRef lf).
  - rewrite H. unfold refresh. simpl. by destruct (glRef lf), (programRef lf).
Qed.

Lemma refresh_draws_one_frame_or_none_witness :
  frames (loop (refresh 48 (run [Refresh 16; SetIsPlaying false] Drivers.stage)))
  = frames (loop (run [Refresh 16; SetIsPlaying false] Drivers.stage)).
Proof.
  exact (refresh_draws_one_frame_or_none 0 true Drivers.stage
           [Refresh 16; SetIsPlaying false] 48 eq_refl).
Defined.

Lemma fold_animate_ext now (cbs : list (N * bool)) c1 c2 :
  glRef (life c1) = glRef (life c2) ->
  programRef (life c1) = programRef (life c2) ->
  view c1 = view c2 -> loop c1 = loop c2 ->
  loop (fold_left (fun c (cb : N * bool) => animate (snd cb) now c) cbs c1)
  = loop (fold_left (fun c (cb : N * bool) => animate (snd cb) now c) cbs c2).
Proof.
  revert c1 c2. induction cbs as [|cb cbs IH]; intros c1 c2 Hg Hp Hv Hl; [done|].
  simpl. apply IH; try done.
  rewrite !animate_loop. by rewrite Hg, Hp, Hv, Hl.
Qed.

(** X9.  A recompile attempt that fails changes nothing of what is drawn:
    the next refresh draws the frame it would have drawn without the
    attempt, with the same program and the same uniforms, and leaves the
    loop in the same state. *)
Theorem failed_attempt_does_not_disturb_frames c (a : Attempt) (now : Z) :
  succeeds (life c) a = false ->
  loop (refresh now (step (Recompile a) c)) = loop (refresh now c)
  /\ frames (loop (refresh now (step (Recompile a) c)))
     = frames (loop (refresh now c)).
Proof.
  intros Hko. destruct (recompile_failure a (life c) Hko) as (Hp & _).
  assert (loop (refresh now (step (Recompile a) c)) = loop (refresh now c)) as H.
  { unfold refresh. simpl. apply fold_animate_ext; simpl; try done.
    apply recompile_glRef. }
  by rewrite H.
Qed.

Lemma failed_attempt_does_not_disturb_frames_witness :
  frames (loop (refresh 16 (step (Recompile Drivers.broken) Drivers.stage)))
  = frames (loop (refresh 16 Drivers.stage)).
Proof.
  destruct (failed_attempt_does_not_disturb_frames
              Drivers.stage Drivers.broken 16 eq_refl) as [_ H].
  exact H.
Defined.

Lemma recompile_no_context (a : Attempt) (s : Session) :
  glRef s = false -> recompile a s = s.
Proof.
  destruct a as [src d], s as [[] ? ? ? ? ? ? ? ?]; [done|].
  intros _. reflexivity.
Qed.

Lemma fold_animate_no_context now (cbs : list (N * bool)) c :
  glRef (life c) = false ->
  frames (loop (fold_left (fun c1 (cb : N * bool) => animate (snd cb) now c1) cbs c))
  = frames (loop c).
Proof.
  revert c. induction cbs as [|cb cbs IH]; intros c Hg; [done|].
  simpl. rewrite IH by done.
  rewrite animate_loop, Hg. simpl. by destruct (snd cb).
Qed.

(** X10.  A canvas that got no WebGL context stays inert: whatever events
    come, nothing is compiled, reported or logged, no program is ever
    installed and no frame is ever drawn. *)
Theorem without_context_nothing_happens c es :
  glRef (life c) = false ->
  life (run es c) = life c
  /\ frames (loop (run es c)) = frames (loop c).
Proof.
  revert c. induction es as [|e es IH]; intros c Hg; [done|].
  change (run (e :: es) c) with (run es (step e c)).
  assert (life (step e c) = life c /\ frames (loop (step e c)) = frames (loop c))
    as [Hl Hf].
  { destruct e as [now|b|a|ly|ly x y]; simpl; try done.
    - split; [apply refresh_keeps|]. unfold refresh.
      by rewrite fold_animate_no_context.
    - destruct c as [lf v [t r pl cbs n fr]].
      unfold setIsPlaying, playEffect, playCleanup, cancel. simpl.
      by destruct b, pl, r.
    - split; [|done]. by apply recompile_no_context. }
  destruct (IH (step e c)) as [-> ->]; [by rewrite Hl|]. done.
Qed.

Lemma without_context_nothing_happens_witness :
  life (run [Recompile Drivers.solid; Refresh 16; Recompile Drivers.broken; Refresh 32]
            (mkComponent (Lifecycle.mount false) Viewport.initial (Loop.mount 0 true)))
  = Lifecycle.mount false
  /\ frames (loop (run [Recompile Drivers.solid; Refresh 16;
                        Recompile Drivers.broken; Refresh 32]
                       (mkComponent (Lifecycle.mount false) Viewport.initial (Loop.mount 0 true))))
     = [].
Proof.
  exact (without_context_nothing_happens
           (mkComponent (Lifecycle.mount false) Viewport.initial (Loop.mount 0 true))
           [Recompile Drivers.solid; Refresh 16; Recompile Drivers.broken; Refresh 32]
           eq_refl).
Defined.

(** X11.  Removing the component leaves no callback behind: whatever
    happened before, after the cleanups no callback is registered, and the
    refreshes that follow draw nothing. *)
Theorem unmount_leaves_no_callback (t0 : Z) (playing : bool) c es (nows : list Z) :
  loop c = Loop.mount t0 playing ->
  callbacks (loop (unmount (run es c))) = []
  /\ frames (loop (run (map Refresh nows) (unmount (run es c))))
     = frames (loop (run es c)).
Proof.
  intros Hl. pose proof (run_Steady t0 playing c es Hl) as H.
  destruct (run es c) as [lf v [t r pl cbs n fr]]. unfold Steady in H.
  simpl in H.
  assert (exists r', unmount (mkComponent lf v (mkScheduler t r pl cbs n fr))
                     = mkComponent lf v (mkScheduler t r' pl [] n fr)) as [r' ->].
  { unfold unmount, playCleanup, cancel. simpl. destruct pl.
    - destruct H as (h & -> & ->). simpl. rewrite N.eqb_refl. simpl.
      destruct (glRef lf); simpl; eauto.
    - rewrite H. destruct r, (glRef lf); simpl; eauto. }
  split; [done|]. simpl.
  induction nows as [|now nows IH]; [done|]. simpl.
  unfold run in *. simpl. unfold refresh at 1. simpl. exact IH.
Qed.

Lemma unmount_leaves_no_callback_witness :
  callbacks (loop (unmount (run [Refresh 16; Refresh 32] Drivers.stage))) = []
  /\ frames (loop (run (map Refresh [48; 64])
                       (unmount (run [Refresh 16; Refresh 32] Drivers.stage))))
     = frames (loop (run [Refresh 16; Refresh 32] Drivers.stage)).
Proof.
  exact (unmount_leaves_no_callback 0 true Drivers.stage
           [Refresh 16; Refresh 32] [48; 64] eq_refl).
Defined.

End LoopMore.

(** ** The surface and the pointer, continued *)

Section ViewportMore.

Import Viewport.

#[local] Open Scope Z_scope.

Lemma to_unsigned_long_floor (q : Q) :
  (0 <= q)%Q -> (q < inject_Z (2 ^ 32))%Q -> to_unsigned_long q = Qfloor q.
Proof.
  destruct q as [n d]. unfold to_unsigned_long, Qfloor, Qle, Qlt. simpl.
  intros H0 H1.
  rewrite Z.quot_div_nonneg by lia.
  apply Z.mod_small. split.
  - apply Z.div_pos; lia.
  - apply Z.div_lt_upper_bound; lia.
Qed.

Lemma shiftl_nat_pow (j : nat) : Z.pos (Pos.shiftl_nat 1 j) = 2 ^ Z.of_nat j.
Proof.
  induction j as [|j IH]; [done|].
  rewrite Nat2Z.inj_succ, Z.pow_succ_r by lia.
  change (Pos.shiftl_nat 1 (S j)) with (xO (Pos.shiftl_nat 1 j)).
  by rewrite Pos2Z.inj_xO, IH.
Qed.

Lemma scaled_dyadic (c n : Z) (j : nat) (r : Q) :
  (r == dyadic n j)%Q ->
  0 <= c -> 0 <= n -> c * n / 2 ^ Z.of_nat j < 2 ^ 31 ->
  to_unsigned_long (inject_Z c * r) = c * n / 2 ^ Z.of_nat j.
Proof.
  intros Hr Hc Hn Hb.
  assert (0 < 2 ^ Z.of_nat j) as Hpos by (apply Z.pow_pos_nonneg; lia).
  assert (c * n < 2 ^ Z.of_nat j * 2 ^ 31) as Hlt.
  { pose proof (Z.div_mod (c * n) (2 ^ Z.of_nat j)).
    pose proof (Z.mod_pos_bound (c * n) (2 ^ Z.of_nat j)). nia. }
  rewrite to_unsigned_long_floor.
  - rewrite Hr. unfold dyadic, Qfloor. simpl.
    by rewrite Pos.mul_1_l, shiftl_nat_pow.
  - rewrite Hr. unfold dyadic, Qle. simpl. nia.
  - rewrite Hr. unfold dyadic, Qlt. simpl.
    rewrite Pos.mul_1_l, shiftl_nat_pow. nia.
Qed.

(** X12.  After a resize the canvas has the CSS size of the element times
    the device pixel ratio, rounded down to whole pixels, and the stored
    pointer is as it was.  This is stated where the product of doubles of
    the code is exact and the [unsigned long] attribute holds it: the ratio
    is [n / 2^j] (as 1, 1.25, 1.5, 2, 3 are), the sizes times [n] stay below
    [2^53], and the result is below [2^31].  With a whole ratio the size is
    exactly the product. *)
Theorem canvas_size_is_scaled_and_rounded_down
    (l : Layout) (v : Surface) (n : Z) (j : nat) :
  (devicePixelRatio l == dyadic n j)%Q ->
  0 <= n -> (j <= 52)%nat ->
  0 <= clientWidth l -> 0 <= clientHeight l ->
  clientWidth l * n < 2 ^ 53 -> clientHeight l * n < 2 ^ 53 ->
  clientWidth l * n / 2 ^ Z.of_nat j < 2 ^ 31 ->
  clientHeight l * n / 2 ^ Z.of_nat j < 2 ^ 31 ->
  width (handleResize l v) = clientWidth l * n / 2 ^ Z.of_nat j
  /\ height (handleResize l v) = clientHeight l * n / 2 ^ Z.of_nat j
  /\ (j = O ->
      width (handleResize l v) = clientWidth l * n
      /\ height (handleResize l v) = clientHeight l * n)
  /\ mouseRef (handleResize l v) = mouseRef v.
Proof.
  intros Hr Hn _ Hw Hh _ _ Hwb Hhb.
  assert (width (handleResize l v) = clientWidth l * n / 2 ^ Z.of_nat j) as H1
    by by apply scaled_dyadic.
  assert (height (handleResize l v) = clientHeight l * n / 2 ^ Z.of_nat j) as H2
    by by apply scaled_dyadic.
  split; [done|]. split; [done|]. split; [|done].
  intros ->. rewrite H1, H2. change (2 ^ Z.of_nat 0) with 1.
  by rewrite !Z.div_1_r.
Qed.

Lemma canvas_size_is_scaled_and_rounded_down_witness :
  width (handleResize (mkLayout 401 301 (3 # 2) 0 0) initial) = 401 * 3 / 2 ^ 1
  /\ height (handleResize (mkLayout 401 301 (3 # 2) 0 0) initial) = 301 * 3 / 2 ^ 1.
Proof.
  destruct (canvas_size_is_scaled_and_rounded_down
              (mkLayout 401 301 (3 # 2) 0 0) initial 3 1) as (H1 & H2 & _);
    try reflexivity; try (simpl; lia).
  split; [exact H1 | exact H2].
Defined.

(** X13.  With a device pixel ratio of 1 the stored pointer is the offset
    of the pointer from the bottom left corner of the canvas: a pointer [ox]
    to the right of and [oy] below the top left corner is stored as
    [(ox, clientHeight - oy)]. *)
Theorem pointer_is_flipped_at_ratio_one (l : Layout) (v : Surface) (ox oy : Q) :
  (devicePixelRatio l == 1)%Q ->
  0 <= clientHeight l < 2 ^ 32 ->
  height (handleResize l v) = clientHeight l
  /\ (fst (mouseRef (handleMouseMove l (rect_left l + ox) (rect_top l + oy)
                                     (handleResize l v))) == ox)%Q
  /\ (snd (mouseRef (handleMouseMove l (rect_left l + ox) (rect_top l + oy)
                                     (handleResize l v)))
      == inject_Z (clientHeight l) - oy)%Q.
Proof.
  intros Hr Hh.
  assert (height (handleResize l v) = clientHeight l) as Hht.
  { simpl. rewrite to_unsigned_long_floor.
    - rewrite Hr, Qmult_1_r. apply Qfloor_Z.
    - rewrite Hr, Qmult_1_r. unfold Qle. simpl. lia.
    - rewrite Hr, Qmult_1_r. unfold Qlt. simpl. lia. }
  split; [done|]. cbn [handleMouseMove mouseRef fst snd]. rewrite Hht.
  split; ring.
Qed.

Lemma pointer_is_flipped_at_ratio_one_witness :
  (snd (mouseRef (handleMouseMove (mkLayout 400 300 1 10 20) (10 + 0) (20 + 300)
                                  (handleResize (mkLayout 400 300 1 10 20) initial)))
   == inject_Z 300 - 300)%Q.
Proof.
  destruct (pointer_is_flipped_at_ratio_one
              (mkLayout 400 300 1 10 20) initial 0 300) as (_ & _ & H).
  - reflexivity.
  - simpl. lia.
  - exact H.
Defined.

End ViewportMore.

(** ** The debounce, continued *)

Section DebounceMore.

Import Debounce.

#[local] Open Scope Z_scope.

Implicit Types (a : App) (es : list (Z * str)).

Lemma elapse_InSync now a : InSync a -> InSync (elapse now a).
Proof.
  unfold InSync, elapse. destruct (timer a) as [[due c]|] eqn:E.
  - destruct (due <=? now); simpl; [done|]. by rewrite E.
  - by rewrite E.
Qed.

Lemma setCode_InSync now c a : InSync a -> InSync (setCode now c a).
Proof.
  intros H. unfold setCode.
  destruct (decide (c = code (elapse now a))); [by apply elapse_InSync|].
  done.
Qed.

Lemma edits_InSync es a : InSync a -> InSync (edits es a).
Proof.
  revert a. induction es as [|e es IH]; intros a H; [done|].
  apply (IH (setCode (fst e) (snd e) a)). by apply setCode_InSync.
Qed.

(** X14.  Whatever is typed and whenever, the debounce never lets the
    canvas fall behind for good: a pending timer always carries the text the
    editor holds now, so once it is due the canvas gets exactly that text,
    and with no timer pending the canvas already has it. *)
Theorem canvas_catches_up_with_editor
    (t0 : Z) (initial : str) (es : list (Z * str)) (T : Z) :
  InSync (edits es (mount t0 initial))
  /\ (match timer (edits es (mount t0 initial)) with
      | Some (due, _) => due <= T
      | None => True
      end ->
      timer (elapse T (edits es (mount t0 initial))) = None
      /\ runnableCode (elapse T (edits es (mount t0 initial)))
         = code (edits es (mount t0 initial))).
Proof.
  assert (InSync (edits es (mount t0 initial))) as H.
  { by apply edits_InSync. }
  split; [done|]. unfold InSync, elapse in *.
  destruct (timer (edits es (mount t0 initial))) as [[due c]|] eqn:E.
  - intros Hdue. destruct (Z.leb_spec due T); [|lia]. by simpl.
  - by rewrite E.
Qed.

Lemma canvas_catches_up_with_editor_witness :
  runnableCode (elapse 2000 (edits [(100, lit "a"); (1000, lit "ab"); (1100, lit "a")]
                                   (mount 0 (lit "void"))))
  = lit "a".
Proof.
  destruct (canvas_catches_up_with_editor 0 (lit "void")
              [(100, lit "a"); (1000, lit "ab"); (1100, lit "a")] 2000)
    as (_ & H).
  destruct H as [_ H]; [vm_compute; discriminate|]. exact H.
Defined.

Lemma fire_compiled due c a :
  hd_error (compiled a) = Some (runnableCode a) -> NoRepeat (compiled a) ->
  hd_error (compiled (fire due c a)) = Some (runnableCode (fire due c a))
  /\ NoRepeat (compiled (fire due c a)).
Proof.
  intros Hh Hn. unfold fire. simpl.
  destruct (decide (c = runnableCode a)) as [->|Hne]; [done|].
  split; [done|]. destruct (compiled a) as [|x l]; [done|].
  simpl in Hh. injection Hh as ->. done.
Qed.

Lemma elapse_compiled now a :
  hd_error (compiled a) = Some (runnableCode a) -> NoRepeat (compiled a) ->
  hd_error (compiled (elapse now a)) = Some (runnableCode (elapse now a))
  /\ NoRepeat (compiled (elapse now a)).
Proof.
  intros Hh Hn. unfold elapse. destruct (timer a) as [[due c]|]; [|done].
  destruct (due <=? now); [|done]. by apply fire_compiled.
Qed.

Lemma setCode_compiled now c a :
  hd_error (compiled a) = Some (runnableCode a) -> NoRepeat (compiled a) ->
  hd_error (compiled (setCode now c a)) = Some (runnableCode (setCode now c a))
  /\ NoRepeat (compiled (setCode now c a)).
Proof.
  intros Hh Hn. unfold setCode.
  destruct (decide (c = code (elapse now a))); by apply elapse_compiled.
Qed.

(** X15.  The canvas compiles what settles, and nothing twice in a row:
    the text it compiled last is always the settled one, and no two
    consecutive compiles are of the same text. *)
Theorem canvas_compiles_no_text_twice_in_a_row
    (t0 : Z) (initial : str) (es : list (Z * str)) (T : Z) :
  hd_error (compiled (elapse T (edits es (mount t0 initial))))
  = Some (runnableCode (elapse T (edits es (mount t0 initial))))
  /\ NoRepeat (compiled (elapse T (edits es (mount t0 initial)))).
Proof.
  assert (forall a, hd_error (compiled a) = Some (runnableCode a) ->
                    NoRepeat (compiled a) ->
                    hd_error (compiled (edits es a)) = Some (runnableCode (edits es a))
                    /\ NoRepeat (compiled (edits es a))) as H.
  { induction es as [|e es IH]; intros a Hh Hn; [done|].
    destruct (setCode_compiled (fst e) (snd e) a Hh Hn) as [Hh' Hn'].
    apply (IH _ Hh' Hn'). }
  destruct (H (mount t0 initial)) as [Hh Hn]; [done|done|].
  by apply elapse_compiled.
Qed.

End DebounceMore.

(** ** The AI operations, continued *)

Section GeminiMore.

Import Gemini.

Implicit Types (p s r : str) (c : N).

Lemma remove_all_absent p s :
  includes s p = false -> remove_all p s = s.
Proof.
  induction s as [|c s IH]; [done|].
  cbn [includes]. intros [H1 H2]%orb_false_iff.
  rewrite remove_all_no_match by done. by rewrite IH.
Qed.

Lemma trimStart_unchanged s :
  (forall c t, s = c :: t -> is_space c = false) -> trimStart s = s.
Proof.
  destruct s as [|c s]; [done|]. intros H. simpl. by rewrite (H c s).
Qed.

Lemma trimEnd_unchanged s :
  (forall t c, s = t ++ [c] -> is_space c = false) -> trimEnd s = s.
Proof.
  intros H. unfold trimEnd. rewrite trimStart_unchanged.
  - apply rev_involutive.
  - intros c t Hr. apply (H (rev t)).
    rewrite <- (rev_involutive s), Hr. done.
Qed.

Lemma cleanup_unchanged r : Clean r -> cleanup r = r.
Proof.
  intros (Hf & Hg & Hh & Hl). unfold cleanup.
  rewrite (remove_all_absent (lit "```glsl")) by done.
  rewrite (remove_all_absent (lit "```")) by done.
  unfold trim. rewrite trimStart_unchanged by done.
  by apply trimEnd_unchanged.
Qed.

(** X16.  Text that holds no code fence and has no white space at its ends
    goes through the cleanup unchanged, so the cleanup changes nothing when
    applied a second time. *)
Theorem cleanup_keeps_clean_text (text : str) :
  (Clean text -> cleanup text = text)
  /\ cleanup (cleanup text) = cleanup text.
Proof.
  split; [apply cleanup_unchanged|].
  apply cleanup_unchanged, cleanup_Clean.
Qed.

Lemma cleanup_keeps_clean_text_witness :
  cleanup (lit "void main() { gl_FragColor = vec4(1.0); }")
  = lit "void main() { gl_FragColor = vec4(1.0); }".
Proof.
  apply (proj1 (cleanup_keeps_clean_text
                  (lit "void main() { gl_FragColor = vec4(1.0); }"))).
  repeat split; try reflexivity.
  - intros c t [= <- _]. reflexivity.
  - intros t c H.
    assert (Some c = List.last (map Some (lit "void main() { gl_FragColor = vec4(1.0); }")) None) as Hc.
    { rewrite H, map_app. simpl. by rewrite last_last. }
    vm_compute in Hc. injection Hc as ->. reflexivity.
Defined.



Lemma ai_never_throws_fix (service : Service) (code errorMsg : str) :
  exists r, fixShaderCode service code errorMsg = Returns r.
Proof.
  unfold fixShaderCode.
  destruct (service (fix_contents code errorMsg)); simpl; eauto.
Qed.

End GeminiMore.

(** ** The AI handlers of App *)

Section AssistantFacts.

Import Gemini Assistant.

#[local] Open Scope Z_scope.

Implicit Types (p : Panel) (ms : list Meanwhile).

Lemma code_setCode now (c : str) (a : Debounce.App) :
  Debounce.code (Debounce.setCode now c a) = c.
Proof.
  unfold Debounce.setCode.
  destruct (decide (c = Debounce.code (Debounce.elapse now a))) as [->|]; [|done].
  by rewrite elapse_code.
Qed.





(** X18.  Fix does nothing without a diagnostic.  With one, whatever the
    service does and whatever happens while it is awaited, the text of the
    editor becomes what the service operation returned, the loading flag
    goes down, and the diagnostic is left as it is.  When the call rejects,
    what comes back is the text the editor held when Fix was pressed: text
    typed in the meantime is replaced by it. *)
Theorem fix_puts_back_the_text_it_was_asked_about
    (service : Service) (now : Z) ms p :
  (error p = None -> fix_round service now ms p = p)
  /\ (forall e, error p = Some e ->
        exists fixedCode,
          fixShaderCode service (Debounce.code (source p)) (message e)
          = Returns fixedCode
          /\ Debounce.code (source (fix_round service now ms p)) = fixedCode
          /\ isAiLoading (fix_round service now ms p) = false
          /\ error (fix_round service now ms p)
             = error (during ms (snd (handleAiFix_begin p)))
          /\ (forall r,
                service (fix_contents (Debounce.code (source p)) (message e))
                = Rejects r ->
                Debounce.code (source (fix_round service now ms p))
                = Debounce.code (source p))).
Proof.
  unfold fix_round, handleAiFix_begin. split.
  - by intros ->.
  - intros e ->. cbn [snd perform].
    destruct (ai_never_throws_fix service (Debounce.code (source p)) (message e))
      as [fixedCode Hr].
    rewrite Hr. exists fixedCode. unfold handleAiFix_end.
    split; [done|]. split; [simpl; apply code_setCode|].
    split; [done|]. split; [done|].
    intros r Hrej. simpl. rewrite code_setCode.
    unfold fixShaderCode in Hr. rewrite Hrej in Hr. simpl in Hr.
    by injection Hr as <-.
Qed.

Lemma fix_puts_back_the_text_it_was_asked_about_witness :
  Debounce.code
    (source (fix_round (fun _ => Rejects (lit "503")) 500
                       [Typed 100 (lit "void main() {}")] desk))
  = lit "void main() {".
Proof.
  destruct (fix_puts_back_the_text_it_was_asked_about
              (fun _ => Rejects (lit "503")) 500
              [Typed 100 (lit "void main() {}")] desk) as [_ H].
  destruct (H (mkShaderError 1 (lit "ERROR: 0:1: '' : syntax error")) eq_refl)
    as (fixedCode & _ & _ & _ & _ & Hrej).
  exact (Hrej (lit "503") eq_refl).
Defined.



Lemma generate_round_empty_answer (service : Service) (now : Z) ms p text :
  trim (promptInput p) <> [] ->
  service (generation_contents (promptInput p)) = Fulfils text ->
  cleanup (or_else text []) = [] ->
  Debounce.code (source (generate_round service now ms p)) = [].
Proof.
  intros Hp Hs Hc. unfold generate_round, handleAiGenerate_begin.
  destruct (trim (promptInput p)) as [|c t]; [done|].
  cbn [perform]. unfold generateShaderFromPrompt. rewrite Hs. simpl.
  rewrite Hc. simpl. apply code_setCode.
Qed.

(** X20.  An answer of the model that is missing, empty, or nothing but
    code fences and white space empties the editor: the generation operation
    returns the empty string, which is not the failure sentinel, and the
    handler puts it in place of the text. *)
Theorem empty_answer_empties_the_editor
    (service : Service) (now : Z) ms p (text : option str) :
  trim (promptInput p) <> [] ->
  service (generation_contents (promptInput p)) = Fulfils text ->
  text = None \/ (exists t, text = Some t /\ cleanup t = []) ->
  generateShaderFromPrompt service (promptInput p) = Returns []
  /\ Debounce.code (source (generate_round service now ms p)) = [].
Proof.
  intros Hp Hs Ht.
  assert (cleanup (or_else text []) = []) as Hc.
  { destruct Ht as [->|(t & -> & Hc)]; [done|]. by destruct t. }
  split; [|by apply (generate_round_empty_answer service now ms p text)].
  unfold generateShaderFromPrompt. rewrite Hs. simpl. by rewrite Hc.
Qed.

Lemma empty_answer_empties_the_editor_witness :
  Debounce.code
    (source (generate_round (fun _ => Fulfils (Some (lit "```glsl
```
"))) 500 [] desk))
  = [].
Proof.
  destruct (empty_answer_empties_the_editor
              (fun _ => Fulfils (Some (lit "```glsl
```
"))) 500 [] desk (Some (lit "```glsl
```
"))) as [_ H].
  - vm_compute. discriminate.
  - reflexivity.
  - right. eexists. split; reflexivity.
  - exact H.
Defined.

End AssistantFacts.

(** ** The highlighter of CodeEditor *)

Section EditorFacts.

Import Editor.

Implicit Types (p s r t : str) (c : N).

(** *** Escaping *)

Lemma replace_all_one c r s :
  replace_all [c] r s = flat_map (fun x => if x =? c then r else [x]) s.
Proof.
  unfold replace_all. induction s as [|x s IH]; [done|].
  cbn [replace_all_from flat_map]. unfold startsWith. cbn [strip_prefix].
  rewrite (N.eqb_sym c x). destruct (x =? c); simpl; by rewrite IH.
Qed.

Lemma flat_map_flat_map {A B C} (f : A -> list B) (g : B -> list C) (l : list A) :
  flat_map g (flat_map f l) = flat_map (fun x => flat_map g (f x)) l.
Proof.
  induction l as [|x l IH]; [done|].
  simpl. by rewrite flat_map_app, IH.
Qed.

Lemma escapeHtml_entities s : escapeHtml s = flat_map entity s.
Proof.
  unfold escapeHtml.
  change (lit ">") with [62]. change (lit "<") with [60].
  change (lit "&") with [38].
  rewrite !replace_all_one, !flat_map_flat_map.
  apply flat_map_ext. intros x. unfold entity.
  destruct (N.eqb_spec x 38) as [->|H38]; [reflexivity|].
  cbn [flat_map]. rewrite app_nil_r.
  destruct (N.eqb_spec x 60) as [->|H60]; [reflexivity|].
  cbn [flat_map]. rewrite app_nil_r.
  by destruct (N.eqb_spec x 62) as [->|H62].
Qed.

Lemma entity_no_bracket c x : In x (entity c) -> x <> 60 /\ x <> 62.
Proof.
  unfold entity.
  destruct (N.eqb_spec c 38); [|destruct (N.eqb_spec c 60);
                                 [|destruct (N.eqb_spec c 62)]].
  - vm_compute. intros H. repeat destruct H as [<-|H]; done.
  - vm_compute. intros H. repeat destruct H as [<-|H]; done.
  - vm_compute. intros H. repeat destruct H as [<-|H]; done.
  - intros [<-|[]]. done.
Qed.

Lemma escapeHtml_no_bracket s : ~ In 60 (escapeHtml s) /\ ~ In 62 (escapeHtml s).
Proof.
  rewrite escapeHtml_entities.
  split; intros (c & _ & H)%in_flat_map; by apply entity_no_bracket in H as [? ?].
Qed.

Lemma entity_cases c :
  (c = 38 /\ entity c = [38; 97; 109; 112; 59])
  \/ (c = 60 /\ entity c = [38; 108; 116; 59])
  \/ (c = 62 /\ entity c = [38; 103; 116; 59])
  \/ (c <> 38 /\ c <> 60 /\ c <> 62 /\ entity c = [c]).
Proof.
  unfold entity.
  destruct (N.eqb_spec c 38) as [->|]; [by left|].
  destruct (N.eqb_spec c 60) as [->|]; [by right; left|].
  destruct (N.eqb_spec c 62) as [->|]; [by right; right; left|].
  by right; right; right.
Qed.

Lemma escapeHtml_injective s1 s2 : escapeHtml s1 = escapeHtml s2 -> s1 = s2.
Proof.
  rewrite !escapeHtml_entities. revert s2.
  induction s1 as [|x s1 IH]; intros [|y s2]; cbn [flat_map].
  - done.
  - destruct (entity_cases y) as [[_ ->]|[[_ ->]|[[_ ->]|(_ & _ & _ & ->)]]];
      discriminate.
  - destruct (entity_cases x) as [[_ ->]|[[_ ->]|[[_ ->]|(_ & _ & _ & ->)]]];
      discriminate.
  - destruct (entity_cases x) as [[-> ->]|[[-> ->]|[[-> ->]|(? & ? & ? & ->)]]];
      destruct (entity_cases y) as [[-> ->]|[[-> ->]|[[-> ->]|(? & ? & ? & ->)]]];
      intros Heq; simplify_eq/=; try done; f_equal; by apply IH.
Qed.

Lemma escapeHtml_plain s :
  ~ In 38 s -> ~ In 60 s -> ~ In 62 s -> escapeHtml s = s.
Proof.
  rewrite escapeHtml_entities. induction s as [|x s IH]; [done|].
  intros H38 H60 H62. cbn [flat_map].
  destruct (entity_cases x) as [[-> _]|[[-> _]|[[-> _]|(_ & _ & _ & ->)]]].
  - destruct H38. by left.
  - destruct H60. by left.
  - destruct H62. by left.
  - simpl. f_equal. apply IH; intros ?; [apply H38|apply H60|apply H62]; by right.
Qed.

(** X21.  The escaping of the highlighter leaves no [<] and no [>] of the
    text in the markup, loses nothing (two texts with the same escaped form
    are the same text), and leaves a text without [&], [<] and [>] as it
    is. *)
Theorem escaping_hides_brackets_and_loses_nothing (text : str) :
  ~ In 60 (escapeHtml text)
  /\ ~ In 62 (escapeHtml text)
  /\ (forall other, escapeHtml text = escapeHtml other -> text = other)
  /\ (~ In 38 text -> ~ In 60 text -> ~ In 62 text -> escapeHtml text = text).
Proof.
  destruct (escapeHtml_no_bracket text) as [H1 H2].
  split; [done|split; [done|split]].
  - intros other. apply escapeHtml_injective.
  - apply escapeHtml_plain.
Qed.

Lemma escaping_hides_brackets_and_loses_nothing_witness :
  escapeHtml (lit "void main() {}") = lit "void main() {}".
Proof.
  destruct (escaping_hides_brackets_and_loses_nothing (lit "void main() {}"))
    as (_ & _ & _ & H).
  apply H; vm_compute; intros H0; repeat destruct H0 as [H0|H0]; done.
Defined.

(** *** The markup *)

Lemma strip_plain p r :
  ~ In 60 p -> strip_tags_from false (p ++ r) = p ++ strip_tags_from false r.
Proof.
  induction p as [|x p IH]; [done|].
  intros H. cbn [app strip_tags_from].
  destruct (N.eqb_spec x 60) as [->|_]; [destruct H; by left|].
  rewrite IH; [done|]. intros ?. apply H. by right.
Qed.

Lemma strip_inside (m : str) r :
  forallb (fun x => negb (x =? 62)) m = true ->
  strip_tags_from true (m ++ 62 :: r) = strip_tags_from false r.
Proof.
  induction m as [|x m IH]; [done|].
  cbn [forallb app strip_tags_from]. intros [H1 H2]%andb_true_iff.
  rewrite H1. by apply IH.
Qed.

Lemma strip_tag t r :
  is_tag t = true -> strip_tags_from false (t ++ r) = strip_tags_from false r.
Proof.
  destruct t as [|c b]; [done|]. cbn [is_tag].
  intros [Hc Hb]%andb_true_iff. apply N.eqb_eq in Hc as ->.
  destruct (rev b) as [|e m] eqn:Er; [done|].
  apply andb_true_iff in Hb as [He Hm]. apply N.eqb_eq in He as ->.
  assert (b = rev m ++ [62]) as ->.
  { rewrite <- (rev_involutive b), Er. done. }
  cbn [app strip_tags_from N.eqb Pos.eqb]. rewrite <- app_assoc.
  apply strip_inside. apply forallb_forall. intros x Hx%in_rev.
  by apply (proj1 (forallb_forall _ _) Hm).
Qed.

Lemma first_down_Some {A} (f : nat -> option A) n a :
  first_down f n = Some a -> exists m, (1 <= m <= n)%nat /\ f m = Some a.
Proof.
  induction n as [|n IH]; [done|]. cbn [first_down].
  destruct (f (S n)) as [b|] eqn:E.
  - intros [= <-]. exists (S n). split; [lia|done].
  - intros (m & Hm & Hf)%IH. exists m. split; [lia|done].
Qed.

Lemma keyword_here_pos prev s n : keyword_here prev s = Some n -> (1 <= n)%nat.
Proof.
  unfold keyword_here. destruct (boundary prev s); [|done].
  destruct (List.find _ keywords) as [k|] eqn:E; [|done].
  intros [= <-]. apply find_some in E as [Hin _].
  assert (forallb (fun k => Nat.ltb 0 (length k)) keywords = true) as H
    by reflexivity.
  apply (proj1 (forallb_forall _ _) H), Nat.ltb_lt in Hin. lia.
Qed.

Lemma number_here_pos prev s n : number_here prev s = Some n -> (1 <= n)%nat.
Proof.
  unfold number_here. destruct (boundary prev s); [|done].
  intros (m & Hm & Hf)%first_down_Some.
  destruct (fraction_here _ _); [|done]. injection Hf as <-. lia.
Qed.

Lemma token_here_shape prev s n markup :
  token_here prev s = Some (n, markup) ->
  (1 <= n)%nat
  /\ exists open, is_tag open = true /\ markup = open ++ take n s ++ span_end.
Proof.
  unfold token_here. destruct (keyword_here prev s) as [k|] eqn:Ek.
  - intros [= <- <-]. split; [by apply keyword_here_pos in Ek|].
    by exists span_keyword.
  - destruct (number_here prev s) as [k|] eqn:En; [|done].
    intros [= <- <-]. split; [by apply number_here_pos in En|].
    by exists span_number.
Qed.

Lemma not_In_take n s x : ~ In x s -> ~ In x (take n s).
Proof.
  intros H Hin. apply H. rewrite <- (take_drop n s). apply in_app_iff. by left.
Qed.

Lemma not_In_drop n s x : ~ In x s -> ~ In x (drop n s).
Proof.
  intros H Hin. apply H. rewrite <- (take_drop n s). apply in_app_iff. by right.
Qed.

(** Without its tags, what the replacement of the tokens gives is the text
    it was given. *)
Lemma strip_tokens k prev s z :
  ~ In 60 s ->
  strip_tags (replace_tokens_from k prev s ++ z) = drop k s ++ strip_tags z.
Proof.
  revert k prev. induction s as [|c s IH]; intros k prev H.
  - by destruct k.
  - assert (~ In 60 s) as Hs by (intros ?; apply H; by right).
    destruct k as [|k]; cbn [replace_tokens_from].
    + destruct (token_here prev (c :: s)) as [[n markup]|] eqn:E.
      * apply token_here_shape in E as (Hn & open & Ht & ->).
        destruct n as [|n]; [lia|]. cbn [Nat.pred].
        unfold strip_tags in *. rewrite <- !app_assoc.
        rewrite strip_tag by done.
        rewrite strip_plain by by apply not_In_take.
        rewrite (strip_tag span_end) by done.
        rewrite IH by done.
        rewrite app_assoc. f_equal. cbn [take drop]. simpl. f_equal.
        apply take_drop.
      * unfold strip_tags in *. cbn [app strip_tags_from].
        destruct (N.eqb_spec c 60) as [->|_]; [destruct H; by left|].
        rewrite IH by done. done.
    + apply IH. done.
Qed.

Lemma strip_line line z :
  ~ In 60 line ->
  strip_tags (highlight_line line ++ z) = line ++ strip_tags z.
Proof.
  intros H. unfold highlight_line, replace_tokens.
  destruct (indexOf line (lit "//")) as [i|].
  - destruct (drop i line) as [|c t] eqn:Ed.
    + rewrite strip_tokens by by apply not_In_take.
      rewrite <- (take_drop i line) at 2. rewrite Ed, app_nil_r. done.
    + rewrite <- !app_assoc.
      rewrite strip_tokens by by apply not_In_take.
      unfold strip_tags. rewrite strip_tag by done.
      rewrite strip_plain by (rewrite <- Ed; by apply not_In_drop).
      rewrite (strip_tag span_end) by done.
      rewrite <- Ed. rewrite app_assoc. f_equal. simpl. apply take_drop.
  - by apply strip_tokens.
Qed.

Lemma split_lines_cons s : exists l ls, split_lines s = l :: ls.
Proof.
  induction s as [|c s (l & ls & IH)]; [by eexists _, _|].
  cbn [split_lines]. destruct (c =? 10); [by eexists _, _|].
  rewrite IH. by eexists _, _.
Qed.

Lemma join_split s : join_lines (split_lines s) = s.
Proof.
  induction s as [|c s IH]; [done|].
  cbn [split_lines]. destruct (N.eqb_spec c 10) as [->|_].
  - destruct (split_lines_cons s) as (l & ls & E). rewrite E in *.
    change (join_lines ([] :: l :: ls)) with (10 :: join_lines (l :: ls)).
    by rewrite IH.
  - destruct (split_lines_cons s) as (l & ls & E). rewrite E in *.
    rewrite <- IH. by destruct ls.
Qed.

Lemma split_lines_plain s x :
  ~ In x s -> Forall (fun l => ~ In x l) (split_lines s).
Proof.
  induction s as [|c s IH]; intros H.
  - by repeat constructor.
  - assert (~ In x s) as Hs by (intros ?; apply H; by right).
    specialize (IH Hs). cbn [split_lines].
    destruct (c =? 10); [constructor; [by intros []|done]|].
    destruct (split_lines s) as [|l ls]; [by repeat constructor; intros [->|[]]; apply H; left|].
    inversion IH as [|? ? Hl Hls]; subst. constructor; [|done].
    intros [->|Hin]; [apply H; by left|done].
Qed.

Lemma strip_lines (ls : list str) :
  Forall (fun l => ~ In 60 l) ls ->
  strip_tags (join_lines (map highlight_line ls)) = join_lines ls.
Proof.
  induction 1 as [|l ls Hl Hls IH]; [done|].
  cbn [map join_lines]. destruct ls as [|l' ls].
  - cbn [map]. rewrite <- (app_nil_r (highlight_line l)).
    rewrite strip_line by done. by rewrite app_nil_r.
  - cbn [map] in *. rewrite strip_line by done.
    f_equal. unfold strip_tags in *. cbn [strip_tags_from N.eqb Pos.eqb].
    by rewrite IH.
Qed.

(** X22.  The highlighter only adds tags: without its tags, the markup of
    a text is the escaped text, whatever the text; so the markup shows the
    characters of the text, in their order, and nothing else. *)
Theorem highlight_only_adds_tags (text : str) :
  strip_tags (highlight text) = escapeHtml text.
Proof.
  unfold highlight. rewrite strip_lines.
  - apply join_split.
  - apply split_lines_plain, escapeHtml_no_bracket.
Qed.

(** *** What counts as a token *)

Lemma is_digit_is_word c : is_digit c = true -> is_word c = true.
Proof.
  unfold is_digit, is_word. intros ->. done.
Qed.

Lemma digits_In (d : str) c : digits d -> In c d -> is_word c = true.
Proof.
  intros Hd Hin. apply is_digit_is_word.
  induction Hd as [|x d Hx Hd IH]; [done|].
  destruct Hin as [<-|Hin]; [done|by apply IH].
Qed.

Lemma boundary_after_word c r :
  is_word c = true -> boundary (Some c) r = true ->
  match r with x :: _ => is_word x = false | [] => True end.
Proof.
  unfold boundary. intros ->. destruct r as [|x r]; [done|].
  by destruct (is_word x).
Qed.

Lemma boundary_before_word prev c r :
  is_word c = true -> boundary prev (c :: r) = true ->
  match prev with Some x => is_word x = false | None => True end.
Proof.
  unfold boundary. intros ->. destruct prev as [x|]; [|done].
  by destruct (is_word x).
Qed.

Lemma before_in_run prev (d r : str) m :
  (1 <= m <= length d)%nat ->
  exists c, before prev m (d ++ r) = Some c /\ In c d.
Proof.
  intros Hm. destruct m as [|m]; [lia|]. cbn [before].
  destruct (nth_error d m) as [c|] eqn:E.
  - exists c. rewrite nth_error_app1 by lia. rewrite E.
    split; [done|]. by apply nth_error_In in E.
  - apply nth_error_None in E. lia.
Qed.

Lemma keywords_are_words :
  forallb (fun k => Nat.ltb 0 (length k) && forallb is_word k) keywords = true.
Proof. reflexivity. Qed.

Lemma keyword_here_whole prev s n :
  keyword_here prev s = Some n ->
  (1 <= n <= length s)%nat
  /\ match prev with Some x => is_word x = false | None => True end
  /\ match drop n s with x :: _ => is_word x = false | [] => True end.
Proof.
  unfold keyword_here. destruct (boundary prev s) eqn:Eb; [|done].
  destruct (List.find _ keywords) as [k|] eqn:E; [|done].
  intros [= <-]. apply find_some in E as [Hin Hk].
  apply (proj1 (forallb_forall _ _) keywords_are_words) in Hin.
  apply andb_true_iff in Hin as [Hlen Hw]. apply Nat.ltb_lt in Hlen.
  destruct (strip_prefix k s) as [rest|] eqn:Es; [|done].
  apply strip_prefix_Some in Es as ->.
  rewrite length_app, drop_app_length. split; [lia|].
  destruct (before_in_run prev k rest (length k)) as (c & Hc & Hinc); [lia|].
  rewrite Hc in Hk.
  assert (is_word c = true) as Hwc by by apply (proj1 (forallb_forall _ _) Hw).
  split; [|by apply (boundary_after_word c)].
  destruct k as [|x k]; [simpl in Hlen; lia|].
  apply (boundary_before_word prev x (k ++ rest)); [|done].
  apply (proj1 (forallb_forall _ _) Hw). by left.
Qed.

Lemma fraction_here_whole (c : N) (t : str) k :
  is_word c = true ->
  fraction_here (Some c) t = Some k ->
  (k <= length t)%nat
  /\ match drop k t with x :: _ => is_word x = false | [] => True end.
Proof.
  intros Hc. unfold fraction_here.
  destruct (match t with
            | 46 :: r => _
            | _ => None
            end) as [j|] eqn:Eg.
  - intros [= <-].
    destruct t as [|x r]; [done|].
    destruct (N.eqb_spec x 46) as [->|Hne]; cycle 1.
    { destruct x as [|q]; [done|]. repeat (destruct q as [q|q|]; try done). }
    apply first_down_Some in Eg as (m & Hm & Hf).
    destruct (boundary _ (drop m r)) eqn:Eb; [|done].
    injection Hf as <-.
    destruct (span_digits r) as [d r'] eqn:Ed.
    apply span_digits_spec in Ed as (-> & Hd & _). cbn [fst] in Hm.
    destruct (before_in_run (Some 46) d r' m Hm) as (y & Hy & Hin).
    rewrite Hy in Eb.
    assert (is_word y = true) as Hwy by by apply (digits_In d).
    cbn [length drop]. rewrite length_app. split; [lia|].
    by apply (boundary_after_word y).
  - destruct (boundary (Some c) t) eqn:Eb; [|done].
    intros [= <-]. split; [lia|]. cbn [drop].
    by apply (boundary_after_word c).
Qed.

Lemma number_here_whole prev s n :
  number_here prev s = Some n ->
  (1 <= n <= length s)%nat
  /\ match prev with Some x => is_word x = false | None => True end
  /\ match drop n s with x :: _ => is_word x = false | [] => True end.
Proof.
  unfold number_here. destruct (boundary prev s) eqn:Eb; [|done].
  intros (m & Hm & Hf)%first_down_Some.
  destruct (fraction_here _ (drop m s)) as [k|] eqn:Ef; [|done].
  injection Hf as <-.
  destruct (span_digits s) as [d r] eqn:Ed.
  apply span_digits_spec in Ed as (-> & Hd & _). cbn [fst] in Hm.
  destruct (before_in_run prev d r m Hm) as (y & Hy & Hin).
  rewrite Hy in Ef.
  assert (is_word y = true) as Hwy by by apply (digits_In d).
  apply fraction_here_whole in Ef as [Hk Hafter]; [|done].
  rewrite length_drop in Hk. rewrite <- drop_drop.
  split; [rewrite length_app in *; lia|]. split; [|done].
  destruct d as [|x d]; [simpl in Hm; lia|].
  apply (boundary_before_word prev x (d ++ r)); [|done].
  apply (digits_In (x :: d)); [done|by left].
Qed.

Lemma token_here_whole (prev : option N) (s : str) (n : nat) (markup : str) :
  token_here prev s = Some (n, markup) ->
  (1 <= n <= length s)%nat
  /\ match prev with Some x => is_word x = false | None => True end
  /\ match drop n s with x :: _ => is_word x = false | [] => True end
  /\ (markup = span_keyword ++ take n s ++ span_end
      \/ markup = span_number ++ take n s ++ span_end).
Proof.
  unfold token_here. destruct (keyword_here prev s) as [k|] eqn:Ek.
  - intros [= <- <-]. apply keyword_here_whole in Ek as (? & ? & ?).
    repeat split; try done; try lia. by left.
  - destruct (number_here prev s) as [k|] eqn:En; [|done].
    intros [= <- <-]. apply number_here_whole in En as (? & ? & ?).
    repeat split; try done; try lia. by right.
Qed.

(** X23.  The highlighter marks whole words only: where it finds a token,
    a keyword or a number, the character before the token is no letter,
    digit or underscore, and neither is the character after it; the token is
    not empty and lies within the text. *)
Theorem tokens_are_whole_words (prev : option N) (s : str) (n : nat) (markup : str) :
  token_here prev s = Some (n, markup) ->
  (1 <= n <= length s)%nat
  /\ match prev with Some x => is_word x = false | None => True end
  /\ match drop n s with x :: _ => is_word x = false | [] => True end
  /\ (markup = span_keyword ++ take n s ++ span_end
      \/ markup = span_number ++ take n s ++ span_end).
Proof. apply token_here_whole. Qed.

Lemma tokens_are_whole_words_witness :
  match drop 3 (lit "int x;") with x :: _ => is_word x = false | [] => True end.
Proof.
  destruct (tokens_are_whole_words (Some 32) (lit "int x;") 3
              (span_keyword ++ take 3 (lit "int x;") ++ span_end) eq_refl)
    as (_ & _ & H & _).
  exact H.
Defined.

(** *** Lines *)

Lemma newlines_app (a b : str) : newlines (a ++ b) = (newlines a + newlines b)%nat.
Proof. apply count_occ_app. Qed.

Lemma newlines_cons c (s : str) :
  newlines (c :: s) = ((if (c =? 10)%N then 1 else 0) + newlines s)%nat.
Proof.
  unfold newlines. destruct (N.eqb_spec c 10) as [->|H].
  - by rewrite count_occ_cons_eq.
  - by rewrite count_occ_cons_neq.
Qed.

Lemma newlines_take_drop n (s : str) :
  (newlines (take n s) + newlines (drop n s))%nat = newlines s.
Proof. by rewrite <- newlines_app, take_drop. Qed.

Lemma newlines_tokens k prev s :
  newlines (replace_tokens_from k prev s) = newlines (drop k s).
Proof.
  revert k prev. induction s as [|c s IH]; intros k prev.
  - by destruct k.
  - destruct k as [|k]; cbn [replace_tokens_from]; [|apply IH].
    destruct (token_here prev (c :: s)) as [[n markup]|] eqn:E.
    + apply token_here_whole in E as (Hn & _ & _ & Hm).
      destruct n as [|n]; [lia|]. cbn [Nat.pred drop].
      assert (newlines markup = newlines (take (S n) (c :: s))) as Hmk.
      { destruct Hm as [-> | ->]; by rewrite !newlines_app, Nat.add_0_r. }
      rewrite newlines_app, Hmk, IH. cbn [take].
      rewrite !newlines_cons, <- Nat.add_assoc. f_equal.
      apply newlines_take_drop.
    + cbn [drop]. by rewrite !newlines_cons, IH.
Qed.

Lemma newlines_line line : newlines (highlight_line line) = newlines line.
Proof.
  unfold highlight_line, replace_tokens.
  destruct (indexOf line (lit "//")) as [i|]; [|apply newlines_tokens].
  destruct (drop i line) as [|c t] eqn:Ed.
  - rewrite newlines_tokens. cbn [drop].
    rewrite <- (newlines_take_drop i line), Ed. by rewrite Nat.add_0_r.
  - rewrite !newlines_app, newlines_tokens, <- Ed. cbn [drop].
    rewrite <- (newlines_take_drop i line).
    change (newlines span_comment) with O. change (newlines span_end) with O.
    rewrite drop_0. lia.
Qed.

Lemma newlines_join_map (f : str -> str) (ls : list str) :
  (forall l, newlines (f l) = newlines l) ->
  newlines (join_lines (map f ls)) = newlines (join_lines ls).
Proof.
  intros Hf. induction ls as [|l ls IH]; [done|].
  cbn [map join_lines]. destruct ls as [|l' ls]; [apply Hf|].
  cbn [map] in *. by rewrite !newlines_app, !newlines_cons, Hf, IH.
Qed.

Lemma newlines_escapeHtml s : newlines (escapeHtml s) = newlines s.
Proof.
  rewrite escapeHtml_entities. induction s as [|c s IH]; [done|].
  cbn [flat_map]. rewrite newlines_app, newlines_cons, IH. f_equal.
  by destruct (entity_cases c) as [[-> ->]|[[-> ->]|[[-> ->]|(_ & _ & _ & ->)]]];
    [..|rewrite newlines_cons, Nat.add_0_r].
Qed.

Lemma split_lines_length s : length (split_lines s) = S (newlines s).
Proof.
  induction s as [|c s IH]; [done|].
  cbn [split_lines]. rewrite newlines_cons.
  destruct (c =? 10); cbn [length]; [by rewrite IH|].
  destruct (split_lines s); [done|]. simpl in *. lia.
Qed.

(** X24.  The highlighter keeps the lines: the markup of a text has as
    many lines as the text, so the coloured copy stays line by line under
    the text that is typed. *)
Theorem highlight_keeps_the_lines (text : str) :
  length (split_lines (highlight text)) = length (split_lines text).
Proof.
  rewrite !split_lines_length. f_equal. unfold highlight.
  rewrite newlines_join_map by apply newlines_line.
  by rewrite join_split, newlines_escapeHtml.
Qed.

End EditorFacts.

(** ** The diagnostic extraction, continued *)

Section ExtractMore.

Implicit Types (s rawLog pre ln : str).

Lemma regex_match_FirstMatch rawLog ln :
  regex_match rawLog = Some ln -> exists pre, FirstMatch rawLog pre ln.
Proof.
  induction rawLog as [|c s IH]; rewrite regex_match_unfold.
  - destruct (match_here []) as [d|] eqn:E; [|done].
    intros [= ->]. exists []. split.
    + exists []. split; [done|]. by apply match_here_Matches.
    + intros k ln' Hk. simpl in Hk. lia.
  - destruct (match_here (c :: s)) as [d|] eqn:E.
    + intros [= ->]. exists []. split.
      * exists (c :: s). split; [done|]. by apply match_here_Matches.
      * intros k ln' Hk. simpl in Hk. lia.
    + intros (pre & (s' & -> & Hm) & Hno)%IH. exists (c :: pre). split.
      * by exists s'.
      * intros [|k] ln' Hk.
        -- by apply match_here_None.
        -- apply (Hno k ln'). simpl in Hk. lia.
Qed.

Lemma regex_match_NoMatch rawLog : regex_match rawLog = None -> NoMatch rawLog.
Proof.
  unfold NoMatch. induction rawLog as [|c s IH]; rewrite regex_match_unfold.
  - destruct (match_here []) as [d|] eqn:E; [done|]. intros _ k ln.
    destruct k; by apply match_here_None.
  - destruct (match_here (c :: s)) as [d|] eqn:E; [done|].
    intros H [|k] ln.
    + by apply match_here_None.
    + by apply IH.
Qed.

(** X25.  The line of a diagnostic always comes from the log.  Every log
    either holds the text "ERROR: digits:digits:" nowhere, and then the
    line is 0, or has a leftmost place where it does, and then the line is
    parsed from the second run of digits there: it is the value of that run
    in base ten, as long as a double holds that value exactly.  A line
    other than 0 is never made up. *)
Theorem line_comes_from_the_log (rawLog : str) :
  ((NoMatch rawLog
    /\ regex_match rawLog = None
    /\ extract rawLog = {| line := 0; message := rawLog |})
   \/ (exists pre ln,
          FirstMatch rawLog pre ln
          /\ regex_match rawLog = Some ln
          /\ digits ln /\ ln <> []
          /\ message (extract rawLog) = rawLog))
  /\ (forall ln,
        regex_match rawLog = Some ln ->
        decimal ln <= MAX_SAFE_INTEGER ->
        line (extract rawLog) = decimal ln).
Proof.
  unfold extract. destruct (regex_match rawLog) as [ln|] eqn:E.
  - destruct (regex_match_FirstMatch _ _ E) as [pre H].
    assert (digits ln /\ ln <> []) as [Hd Hne].
    { destruct H as [(s & _ & id & post & _ & _ & Hd & Hne & _) _]. done. }
    split.
    + right. by exists pre, ln.
    + intros ? [= <-] _. simpl. by apply parseInt_digits.
  - split; [|done]. left. split; [by apply regex_match_NoMatch|done].
Qed.

Lemma line_comes_from_the_log_witness :
  line (extract (lit "WARNING: 0:3: unused
ERROR: 0:12: 'x' : undeclared identifier")) = 12.
Proof.
  destruct (line_comes_from_the_log (lit "WARNING: 0:3: unused
ERROR: 0:12: 'x' : undeclared identifier")) as [_ H].
  apply (H (lit "12")); [reflexivity|].
  vm_compute. discriminate.
Defined.

End ExtractMore.
